(** * Union-find with zero-sum verification (moneymatters.cpp)

    A shallow embedding of [src/test-assets/moneymatters.cpp]: the [Node]
    record, the recursive [find] with full path compression, [nodeUnion]
    (union by rank), [query], and the aggregation pass at the end of [main].

    Memory model.  Every [Node] is allocated by [new Node()] in the first
    loop of [main] and [nodes[i]] holds its address.  The heap of nodes is a
    list; the address of the [i]-th allocated node is the natural number [i],
    so [nodes[i]] is [i] itself.  Indices are naturals; an index that is not
    below [n] (as a negative [int] would not be) reads no cell of [nodes],
    and the address it stands for is outside the heap.  Dereferencing such
    an address is undefined behaviour in C++, which the model makes an
    explicit [Fault] outcome.  Effects are a state monad over the heap whose
    state survives a failure, as the memory of the process does: what was
    written before the faulting access stays written.

    [int] is 32-bit two's complement; arithmetic on it is written with
    [wrap]. *)

From stdpp Require Import base list gmap fin_maps.
From Stdlib Require Import ZArith Lia.

Local Open Scope Z_scope.

(** ** Machine integers *)

Definition INT_MIN : Z := - 2 ^ 31.
Definition INT_MAX : Z := 2 ^ 31 - 1.

(** Reduction of an ideal integer to the [int] range. *)
Definition wrap (z : Z) : Z := (z + 2 ^ 31) mod 2 ^ 32 - 2 ^ 31.

Definition in_int (z : Z) : Prop := INT_MIN <= z <= INT_MAX.

(** ** Nodes and the heap *)

(** A node pointer is the index of the node in the heap. *)
Abbreviation ptr := nat (only parsing).

(** [struct Node { Node* parent = this; int rank = 0; int money = 0; }] *)
Record Node := mkNode { parent : ptr; rank : Z; money : Z }.

(** The heap: [Node* nodes[n]] with every cell allocated. *)
Abbreviation Forest := (list Node) (only parsing).

Definition set_parent (p : ptr) (n : Node) : Node :=
  mkNode p (rank n) (money n).

Definition set_rank (r : Z) (n : Node) : Node :=
  mkNode (parent n) r (money n).

(** ** Outcomes and the heap monad *)

Inductive outcome (A : Type) : Type :=
| Ok (a : A)        (* normal return *)
| Fault             (* dereference of an address outside the heap *)
| OutOfFuel.        (* the recursion did not end within the fuel given *)
Arguments Ok {A} a.
Arguments Fault {A}.
Arguments OutOfFuel {A}.

Definition M (A : Type) : Type := Forest -> Forest * outcome A.

Definition ret {A} (a : A) : M A := fun f => (f, Ok a).

Definition bind {A B} (m : M A) (k : A -> M B) : M B :=
  fun f =>
    match m f with
    | (f', Ok a) => k a f'
    | (f', Fault) => (f', Fault)
    | (f', OutOfFuel) => (f', OutOfFuel)
    end.

Notation "x <- m ;; k" := (bind m (fun x => k))
  (at level 100, m at next level, right associativity).
Notation "m ;;; k" := (bind m (fun _ => k))
  (at level 100, right associativity).

(** [p->parent], [p->rank], [p->money] as reads. *)
Definition load {A} (field : Node -> A) (p : ptr) : M A :=
  fun f =>
    match f !! p with
    | Some n => (f, Ok (field n))
    | None => (f, Fault)
    end.

(** [p->parent = q] and [p->rank = r] as writes. *)
Definition store (upd : Node -> Node) (p : ptr) : M unit :=
  fun f =>
    match f !! p with
    | Some n => (<[p := upd n]> f, Ok tt)
    | None => (f, Fault)
    end.

(** ** find *)

(** [Node* find(Node* x)]: the recursion of the source, with the depth of
    the recursion bounded by [fuel]. *)
Fixpoint find_rec (fuel : nat) (x : ptr) : M ptr :=
  match fuel with
  | O => fun f => (f, OutOfFuel)
  | S fuel' =>
      px <- load parent x ;;
      if decide (px = x) then load parent x
      else
        r <- find_rec fuel' px ;;
        store (set_parent r) x ;;;
        load parent x
  end.

(** A path without a cycle visits at most [length f] nodes, so this fuel
    never runs out on a forest (see [find_total]). *)
Definition find (x : ptr) : M ptr :=
  fun f => find_rec (S (length f)) x f.

(** ** nodeUnion and query *)

Definition nodeUnion (a b : ptr) : M unit :=
  rootA <- find a ;;
  rootB <- find b ;;
  if decide (rootA = rootB) then ret tt
  else
    ra <- load rank rootA ;;
    rb <- load rank rootB ;;
    let '(rootA, rootB) :=
      if ra <? rb then (rootB, rootA) else (rootA, rootB) in
    store (set_parent rootA) rootB ;;;
    ra <- load rank rootA ;;
    rb <- load rank rootB ;;
    if ra =? rb then store (set_rank (wrap (ra + 1))) rootA
    else ret tt.

Definition query (a b : ptr) : M bool :=
  ra <- find a ;;
  rb <- find b ;;
  ret (bool_decide (ra = rb)).

(** ** main *)

Inductive verdict := POSSIBLE | IMPOSSIBLE.

(** The first loop of [main]: node [i] is its own parent, has rank 0 and the
    [i]-th value read. *)
Definition make (moneys : list Z) : Forest :=
  imap (fun i m => mkNode i 0 m) moneys.

(** The second loop: [nodeUnion(nodes[a], nodes[b])] for every pair read. *)
Fixpoint unions (l : list (nat * nat)) : M unit :=
  match l with
  | [] => ret tt
  | (a, b) :: l' => nodeUnion a b ;;; unions l'
  end.

(** One round of the aggregation loop, for entity [i]. *)
Definition scan_step (i : nat) (sums : gmap ptr Z) : M (gmap ptr Z) :=
  p <- find i ;;
  let sums1 :=
    match sums !! p with
    | None => <[p := 0]> sums
    | Some _ => sums
    end in
  m <- load money i ;;
  ret (<[p := wrap (default 0 (sums1 !! p) + m)]> sums1).

(** The aggregation loop over the entities in the order given. *)
Fixpoint scan (order : list nat) (sums : gmap ptr Z) : M (gmap ptr Z) :=
  match order with
  | [] => ret sums
  | i :: order' => sums' <- scan_step i sums ;; scan order' sums'
  end.

(** The last loop: the first nonzero total met decides. *)
Fixpoint scan_sums (l : list (ptr * Z)) : verdict :=
  match l with
  | [] => POSSIBLE
  | (_, total) :: l' => if total =? 0 then scan_sums l' else IMPOSSIBLE
  end.

(** Lines 58 to 75 of [main], with the order of the first loop a
    parameter. *)
Definition verify_scan (order : list nat) : M verdict :=
  sums <- scan order ∅ ;;
  ret (scan_sums (map_to_list sums)).

(** The source scans [i = 0 .. n-1]. *)
Definition verify : M verdict :=
  fun f => verify_scan (seq 0 (length f)) f.

Definition main (moneys : list Z) (us : list (nat * nat)) : outcome verdict :=
  snd ((unions us ;;; verify) (make moneys)).

Local Close Scope Z_scope.

(** ** Forests *)

(** [root_in f k x r]: following the parent links from [x] reaches, after
    exactly [k] links, the node [r], which is its own parent. *)
Inductive root_in (f : Forest) : nat -> ptr -> ptr -> Prop :=
| root_in_O x nx :
    f !! x = Some nx -> parent nx = x -> root_in f 0 x x
| root_in_S k x nx r :
    f !! x = Some nx -> parent nx <> x ->
    root_in f k (parent nx) r -> root_in f (S k) x r.

(** [r] is the representative of [x]. *)
Definition root_of (f : Forest) (x r : ptr) : Prop := exists k, root_in f k x r.

(** [y] is visited by [find x]: it lies on the parent path that starts at
    [x]. *)
Inductive on_path (f : Forest) : ptr -> ptr -> Prop :=
| on_path_here x : on_path f x x
| on_path_next x nx y :
    f !! x = Some nx -> parent nx <> x ->
    on_path f (parent nx) y -> on_path f x y.

(** The forest invariant: every node reaches a representative. *)
Definition wf (f : Forest) : Prop :=
  forall x, x < length f -> exists r, root_of f x r.

(** [f'] is [f] after some path compression: same nodes, same ranks and
    values, and every parent link is the old one or leads straight to the
    old representative. *)
Definition compressed (f f' : Forest) : Prop :=
  length f' = length f /\
  forall y ny, f !! y = Some ny ->
    exists ny', f' !! y = Some ny' /\
      rank ny' = rank ny /\ money ny' = money ny /\
      (parent ny' = parent ny \/ root_of f y (parent ny')).

(** What [find] answers, as a function of the forest. *)
Definition rep (f : Forest) (x : ptr) : outcome ptr := snd (find x f).

(** [same_group] of the specification is [query]. *)
Definition same_group (f : Forest) (a b : ptr) : outcome bool :=
  snd (query a b f).

#[global] Instance outcome_eq_dec {A} `{EqDecision A} : EqDecision (outcome A).
Proof. solve_decision. Defined.

#[global] Instance verdict_eq_dec : EqDecision verdict.
Proof. solve_decision. Defined.

#[global] Instance Node_eq_dec : EqDecision Node.
Proof. solve_decision. Defined.

(** ** Specification vocabulary *)

(** What one call of [find] does to the heap: the nodes on the path get the
    representative as parent, nothing else changes. *)
Definition find_post (f : Forest) (x r : ptr) (f' : Forest) : Prop :=
  length f' = length f /\
  forall y ny, f !! y = Some ny ->
    exists ny', f' !! y = Some ny' /\
      rank ny' = rank ny /\ money ny' = money ny /\
      (on_path f x y -> parent ny' = r) /\
      (~ on_path f x y -> ny' = ny).

(** [f'] is [f2] after the merge at the end of [nodeUnion]: the
    representative [l] got [w] as parent, and the rank of [w] went up by one
    if the two ranks were equal. *)
Definition merged (f2 : Forest) (w l : ptr) (f' : Forest) : Prop :=
  exists nw nl,
    f2 !! w = Some nw /\ f2 !! l = Some nl /\ w <> l /\
    parent nw = w /\ parent nl = l /\ (rank nl <= rank nw)%Z /\
    f' = (if (rank nw =? rank nl)%Z
          then <[w := set_rank (wrap (rank nw + 1)) (nw)]>
                 (<[l := set_parent w nl]> f2)
          else <[l := set_parent w nl]> f2).

(** What one call of [nodeUnion] does: the two [find]s compress, then the
    representatives are linked if they differ. *)
Definition union_post (f : Forest) (a b : ptr) (f' : Forest) : Prop :=
  exists ra rb f1 f2,
    find a f = (f1, Ok ra) /\ find b f1 = (f2, Ok rb) /\
    root_of f a ra /\ root_of f b rb /\
    find_post f a ra f1 /\ find_post f1 b rb f2 /\
    compressed f f1 /\ compressed f f2 /\ wf f1 /\ wf f2 /\
    (ra = rb -> f' = f2) /\
    (ra <> rb -> exists na nb,
        f2 !! ra = Some na /\ f2 !! rb = Some nb /\
        if (rank na <? rank nb)%Z then merged f2 rb ra f'
        else merged f2 ra rb f').

(** The value [nodes[y]->money] of entity [y] (0 where there is no node). *)
Definition value (f : Forest) (y : ptr) : Z :=
  default 0%Z (money <$> f !! y).

(** [f'] holds the values of [f]. *)
Definition same_money (f f' : Forest) : Prop :=
  forall y, money <$> f' !! y = money <$> f !! y.

(** The calls a client can make on the forest, by entity index. *)
Inductive op :=
| OpFind (x : nat)
| OpUnion (a b : nat)
| OpQuery (a b : nat).

Definition run_op (o : op) : M unit :=
  match o with
  | OpFind x => find x ;;; ret tt
  | OpUnion a b => nodeUnion a b
  | OpQuery a b => query a b ;;; ret tt
  end.

Fixpoint run_ops (l : list op) : M unit :=
  match l with
  | [] => ret tt
  | o :: l' => run_op o ;;; run_ops l'
  end.

(** A sequence of [find] calls. *)
Fixpoint finds (xs : list ptr) : M unit :=
  match xs with
  | [] => ret tt
  | x :: xs' => find x ;;; finds xs'
  end.

(** The indices of an operation are entities of a forest of [n] nodes. *)
Definition valid_op (n : nat) (o : op) : Prop :=
  match o with
  | OpFind x => x < n
  | OpUnion a b | OpQuery a b => a < n /\ b < n
  end.

(** No group of [f] is split in [f']. *)
Definition coarsens (f f' : Forest) : Prop :=
  forall x y r, root_of f x r -> root_of f y r ->
    exists r', root_of f' x r' /\ root_of f' y r'.

(** The ideal sum of a list of integers. *)
Definition zsum (l : list Z) : Z := foldr Z.add 0%Z l.

(** The sum as the aggregation loop computes it: a running [int] total,
    [total += v] for every value in turn. *)
Definition int_sum (l : list Z) : Z :=
  foldl (fun total v => wrap (total + v)) 0%Z l.

(** The entities of [order] whose [find] resolves to [r]. *)
Definition members_in (f : Forest) (order : list nat) (r : ptr) : list nat :=
  filter (fun y => rep f y = Ok r) order.

(** The group of representative [r], in index order. *)
Definition members (f : Forest) (r : ptr) : list nat :=
  members_in f (seq 0 (length f)) r.

(** The total of the group of [r] in [int] arithmetic, and its ideal
    total. *)
Definition group_sum (f : Forest) (r : ptr) : Z :=
  int_sum (value f <$> members f r).

Definition group_total (f : Forest) (r : ptr) : Z :=
  zsum (value f <$> members f r).

(** The sum of the magnitudes of all values of the forest. *)
Definition abs_total (f : Forest) : Z :=
  zsum ((fun n => Z.abs (money n)) <$> f).

(** What the map [sums] holds after the entities of [done] are scanned. *)
Definition sums_inv (f : Forest) (done : list nat) (sums : gmap nat Z) : Prop :=
  forall r,
    sums !! r =
      if decide (members_in f done r = [])
      then None
      else Some (wrap (zsum (value f <$> members_in f done r))).

(** [follow f k x]: the node reached from [x] after [k] parent links. *)
Fixpoint follow (f : Forest) (k : nat) (x : ptr) : option ptr :=
  match k with
  | O => Some x
  | S k' =>
      match f !! x with
      | Some nx => follow f k' (parent nx)
      | None => None
      end
  end.

(** A union request of the input names two of the [n] entities. *)
Definition valid_pair (n : nat) (ab : nat * nat) : Prop :=
  ab.1 < n /\ ab.2 < n.

#[global] Instance valid_pair_dec n ab : Decision (valid_pair n ab).
Proof. unfold valid_pair. apply _. Defined.

#[global] Instance valid_op_dec n o : Decision (valid_op n o).
Proof. destruct o; simpl; apply _. Defined.

(** Five entities; the requests (0,1), (2,3), (1,3) leave the chain
    3 -> 2 -> 0 with 1 -> 0, and entity 4 alone. *)
Definition chain_values : list Z := [3; -3; 5; -5; 0]%Z.

Definition chain_unions : list (nat * nat) := [(0, 1); (2, 3); (1, 3)].

Definition chain_forest : Forest :=
  fst (unions chain_unions (make chain_values)).

(** Every rank is at most the number of nodes that are not
    representatives: a set [S] of such nodes bounds all ranks. *)
Definition ranks_inv (f : Forest) : Prop :=
  exists S : gset nat,
    (forall x, x ∈ S -> exists nx, f !! x = Some nx /\ parent nx <> x) /\
    (forall y ny, f !! y = Some ny -> (0 <= rank ny <= Z.of_nat (size S))%Z).

(** ** Vocabulary for the whole program *)

(** The requests [us] connect two entities: the least equivalence that
    holds of every requested pair. *)
Inductive connected (us : list (nat * nat)) : nat -> nat -> Prop :=
| connected_refl x : connected us x x
| connected_edge a b : (a, b) ∈ us -> connected us a b
| connected_sym x y : connected us x y -> connected us y x
| connected_trans x y z :
    connected us x y -> connected us y z -> connected us x z.

(** The groups of the forest [f] joined further by the requests [us]. *)
Inductive joined (f : Forest) (us : list (nat * nat)) : nat -> nat -> Prop :=
| joined_group x y : same_group f x y = Ok true -> joined f us x y
| joined_edge a b : (a, b) ∈ us -> joined f us a b
| joined_sym x y : joined f us x y -> joined f us y x
| joined_trans x y z : joined f us x y -> joined f us y z -> joined f us x z.

(** The [i]-th value of the input (0 past its end). *)
Definition input_value (ms : list Z) (i : nat) : Z := default 0%Z (ms !! i).

(** Ranks grow strictly along every parent link. *)
Definition rank_order (f : Forest) : Prop :=
  forall x nx, f !! x = Some nx -> parent nx <> x ->
    exists np, f !! parent nx = Some np /\ (rank nx < rank np)%Z.

(** A representative of rank [k] has a group of at least [2^k] entities. *)
Definition rank_size (f : Forest) : Prop :=
  forall r nr, f !! r = Some nr -> parent nr = r ->
    (2 ^ rank nr <= Z.of_nat (length (members f r)))%Z.

(** Every node is a representative or has one as parent. *)
Definition flat (f : Forest) : Prop :=
  forall y ny, f !! y = Some ny ->
    exists nr, f !! parent ny = Some nr /\ parent nr = parent ny.

(** ** ants.cpp *)

(** The second source file: [abs], [min], [max] on [int], the two loops of
    one test case, and [main], which indexes an empty vector before it
    reads anything. *)
Module Ants.

(** [int abs(int a)]: [-a] is computed in [int]. *)
Definition abs (a : Z) : Z := if (a <? 0)%Z then wrap (- a) else a.

Definition min (a b : Z) : Z := if (a <? b)%Z then a else b.

Definition max (a b : Z) : Z := if (a <? b)%Z then b else a.

(** The block "Shortest time" for a rod of length [l] and the positions
    [ants], in the order they were pushed. *)
Definition shortestT (l : Z) (ants : list Z) : Z :=
  foldl (fun longest pos => max longest (min pos (wrap (l - pos)))) 0%Z ants.

(** The block "Longest time". *)
Definition longestT (l : Z) (ants : list Z) : Z :=
  foldl (fun longest pos => max longest (max pos (wrap (l - pos)))) 0%Z ants.

(** The numbers one test case prints. *)
Definition run_case (c : Z * list Z) : list Z :=
  [shortestT c.1 c.2; longestT c.1 c.2].

(** [main] on the test cases of the input: [arr[101]] on the empty vector
    [arr] is evaluated first; the numbers printed and the outcome. *)
Definition main (cases : list (Z * list Z)) : list Z * outcome unit :=
  match (@nil Z) !! 101 with
  | None => ([], Fault)
  | Some v => (v :: concat (run_case <$> cases), Ok tt)
  end.

End Ants.

(** ** Vocabulary for the corrected statements *)

(** Lines 24 to 35 of [nodeUnion]: what is done with the two
    representatives once both [find] calls have returned. *)
Definition link_roots (rootA rootB : ptr) : M unit :=
  if decide (rootA = rootB) then ret tt
  else
    ra <- load rank rootA ;;
    rb <- load rank rootB ;;
    let '(rootA, rootB) :=
      if (ra <? rb)%Z then (rootB, rootA) else (rootA, rootB) in
    store (set_parent rootA) rootB ;;;
    ra <- load rank rootA ;;
    rb <- load rank rootB ;;
    if (ra =? rb)%Z then store (set_rank (wrap (ra + 1))) rootA
    else ret tt.

(** Three values of the [int] range in one group; their ideal total is
    [2^32]. *)
Definition wide_values : list Z := [INT_MAX; INT_MAX; 2%Z].

Definition wide_forest : Forest :=
  fst (unions [(0, 1); (1, 2)] (make wide_values)).

(** ** Representatives are unique and close *)

Lemma root_in_det f k x r k' r' :
  root_in f k x r -> root_in f k' x r' -> k = k' /\ r = r'.
Proof.
  intros H. revert k' r'.
  induction H as [x nx Hx Hp | k x nx r Hx Hp H IH]; intros k' r' H'.
  - inversion H'; subst; [done | congruence].
  - inversion H' as [? nx' Hx' Hp' | k0 ? nx' ? Hx' Hp' H0]; subst.
    + congruence.
    + assert (nx' = nx) by congruence. subst nx'.
      destruct (IH _ _ H0) as [-> ->]. done.
Qed.

Lemma root_of_det f x r r' : root_of f x r -> root_of f x r' -> r = r'.
Proof. intros [k H] [k' H']. by destruct (root_in_det _ _ _ _ _ _ H H'). Qed.

Lemma root_in_root f k x r : root_in f k x r -> root_in f 0 r r.
Proof. induction 1; eauto using root_in. Qed.

Lemma root_in_lt f k x r : root_in f k x r -> x < length f.
Proof. inversion 1; subst; eauto using lookup_lt_Some. Qed.

Lemma root_of_lt f x r : root_of f x r -> x < length f /\ r < length f.
Proof.
  intros [k H]. split; [by eapply root_in_lt|].
  eapply root_in_lt, root_in_root, H.
Qed.

Lemma root_of_self f x r : root_of f x r -> root_of f r r.
Proof. intros [k H]. exists 0. by eapply root_in_root. Qed.

Lemma root_in_is_root f k r x :
  root_in f 0 r r -> root_in f k r x -> k = 0 /\ x = r.
Proof. intros H H'. by destruct (root_in_det _ _ _ _ _ _ H H'). Qed.

(** The nodes of a path are pairwise different, so there are at most
    [length f] of them. *)
Lemma root_in_chain f k x r :
  root_in f k x r ->
  exists l : list nat, length l = S k /\ NoDup l /\
    forall y, y ∈ l -> exists j, j <= k /\ root_in f j y r.
Proof.
  induction 1 as [x nx Hx Hp | k x nx r Hx Hp H (l & Hl & Hnd & Hall)].
  - exists [x]. split; [done|]. split; [apply NoDup_singleton|].
    intros y ->%list_elem_of_singleton. exists 0. eauto using root_in.
  - exists (x :: l). split; [simpl; lia|]. split.
    + apply NoDup_cons. split; [|done].
      intros (j & Hj & Hin)%Hall.
      assert (root_in f (S k) x r) as Hx' by eauto using root_in.
      destruct (root_in_det _ _ _ _ _ _ Hin Hx'). lia.
    + intros y [->|Hy]%elem_of_cons.
      * exists (S k). eauto using root_in.
      * destruct (Hall _ Hy) as (j & ? & ?). exists j. split; [lia|done].
Qed.

Lemma root_in_bound f k x r : root_in f k x r -> k < length f.
Proof.
  intros (l & Hl & Hnd & Hall)%root_in_chain.
  assert (l ⊆+ seq 0 (length f)) as Hsub.
  { apply NoDup_submseteq; [done|]. intros y (j & _ & Hy)%Hall.
    apply elem_of_seq. apply root_in_lt in Hy. lia. }
  apply submseteq_length in Hsub. rewrite length_seq in Hsub. lia.
Qed.

Lemma on_path_root_in f k x r y :
  root_in f k x r -> on_path f x y -> exists j, j <= k /\ root_in f j y r.
Proof.
  intros H Hy. revert k H.
  induction Hy as [x | x nx y Hx Hp Hy IH]; intros k H.
  - eauto.
  - inversion H as [? nx' Hx' Hp' | k0 ? nx' ? Hx' Hp' H0]; subst.
    + congruence.
    + assert (nx' = nx) by congruence. subst nx'.
      destruct (IH _ H0) as (j & ? & ?). exists j. split; [lia|done].
Qed.

Lemma on_path_root f k x r : root_in f k x r -> on_path f x r.
Proof. induction 1; eauto using on_path. Qed.

(** ** find *)

Lemma find_rec_spec f k x r :
  root_in f k x r ->
  forall fuel, k < fuel ->
  exists f', find_rec fuel x f = (f', Ok r) /\ find_post f x r f'.
Proof.
  induction 1 as [x nx Hx Hp | k x nx r Hx Hp H IH]; intros [|fuel] Hfuel;
    try lia.
  - exists f. split.
    + simpl. unfold bind, load. rewrite Hx, Hp.
      rewrite decide_True by done. by rewrite Hx, Hp.
    + split; [done|]. intros y ny Hy. exists ny. repeat split; try done.
      inversion 1; subst; congruence.
  - destruct (IH fuel ltac:(lia)) as (f1 & Hrec & Hlen & Hpost).
    destruct (Hpost _ _ Hx) as (nx1 & Hx1 & Hrk & Hmo & _).
    exists (<[x := set_parent r nx1]> f1). split.
    + simpl. unfold bind at 1. unfold load at 1. rewrite Hx.
      rewrite decide_False by done.
      unfold bind at 1. rewrite Hrec.
      unfold bind, store, load. rewrite Hx1.
      rewrite list_lookup_insert_eq by eauto using lookup_lt_Some. done.
    + split; [by rewrite length_insert|]. intros y ny Hy.
      destruct (decide (y = x)) as [->|Hne].
      * exists (set_parent r nx1).
        rewrite list_lookup_insert_eq by eauto using lookup_lt_Some.
        assert (ny = nx) by congruence. subst ny.
        repeat split; try done.
        intros Hn. destruct Hn. constructor.
      * rewrite list_lookup_insert_ne by done.
        destruct (Hpost _ _ Hy) as (ny' & Hy' & ? & ? & Hon & Hoff).
        exists ny'. repeat split; try done.
        -- intros Hpath. apply Hon.
           inversion Hpath as [|? nx' ? Hx' ? Hrest]; subst; [done|].
           by replace nx with nx' by congruence.
        -- intros Hn. apply Hoff. intros Hpath. apply Hn.
           eauto using on_path.
Qed.

(** [find] returns on every node of a forest, with the representative. *)
Lemma find_total f x r :
  root_of f x r -> exists f', find x f = (f', Ok r) /\ find_post f x r f'.
Proof.
  intros [k H]. unfold find. eapply find_rec_spec; [done|].
  apply root_in_bound in H. lia.
Qed.

Lemma on_path_dec f k x r y :
  root_in f k x r -> on_path f x y \/ ~ on_path f x y.
Proof.
  induction 1 as [x nx Hx Hp | k x nx r Hx Hp H IH].
  - destruct (decide (y = x)) as [->|Hne]; [left; constructor|right].
    inversion 1; subst; congruence.
  - destruct (decide (y = x)) as [->|Hne]; [left; constructor|].
    destruct IH as [IH|IH]; [left; eauto using on_path|right].
    inversion 1 as [|? nx' ? Hx' ? Hrest]; subst; [done|].
    apply IH. by replace nx with nx' by congruence.
Qed.

Lemma find_post_compressed f x r f' :
  root_of f x r -> find_post f x r f' -> compressed f f'.
Proof.
  intros [k Hroot] [Hlen Hpost]. split; [done|].
  intros y ny Hy. destruct (Hpost _ _ Hy) as (ny' & Hy' & ? & ? & Hon & Hoff).
  exists ny'. repeat split; try done.
  destruct (on_path_dec _ _ _ _ y Hroot) as [Hpath|Hpath].
  - right. rewrite (Hon Hpath).
    destruct (on_path_root_in _ _ _ _ _ Hroot Hpath) as (j & _ & Hj).
    by exists j.
  - left. by rewrite (Hoff Hpath).
Qed.

(** ** Path compression keeps the representatives *)

Lemma compressed_root_in f f' k y r :
  compressed f f' -> root_in f k y r -> root_of f' y r.
Proof.
  intros [Hlen Hc].
  assert (forall r, root_in f 0 r r -> root_in f' 0 r r) as Hroot.
  { intros r0 Hr0. inversion Hr0 as [? nr Hr Hp|]; subst.
    destruct (Hc _ _ Hr) as (nr' & Hr' & _ & _ & [Hpar|[j Hj]]).
    - econstructor; [done|congruence].
    - destruct (root_in_is_root _ _ _ _ Hr0 Hj) as [_ Heq].
      econstructor; done. }
  induction 1 as [x nx Hx Hp | k x nx r Hx Hp H [k' IH]].
  - exists 0. apply Hroot. eauto using root_in.
  - assert (root_in f (S k) x r) as Hxr by eauto using root_in.
    assert (r <> x) as Hrx.
    { intros ->. apply root_in_root in H.
      destruct (root_in_is_root _ _ _ _ H Hxr). lia. }
    destruct (Hc _ _ Hx) as (nx' & Hx' & _ & _ & [Hpar|[j Hj]]).
    + exists (S k'). econstructor; [done|congruence|]. by rewrite Hpar.
    + destruct (root_in_det _ _ _ _ _ _ Hj Hxr) as [_ Heq].
      exists 1. econstructor; [done|congruence|]. rewrite Heq.
      eapply Hroot, root_in_root, H.
Qed.

Lemma compressed_root_of f f' y r :
  wf f -> compressed f f' -> root_of f' y r <-> root_of f y r.
Proof.
  intros Hwf Hc. split.
  - intros H'. destruct (root_of_lt _ _ _ H') as [Hy _].
    destruct Hc as [Hlen Hc']. rewrite Hlen in Hy.
    destruct (Hwf _ Hy) as [r0 [k H0]].
    assert (root_of f' y r0) as H0'
      by (eapply compressed_root_in; [by split|done]).
    rewrite (root_of_det _ _ _ _ H' H0'). by exists k.
  - intros [k H]. by eapply compressed_root_in.
Qed.

Lemma compressed_wf f f' : wf f -> compressed f f' -> wf f'.
Proof.
  intros Hwf Hc x Hx. destruct Hc as [Hlen Hc']. rewrite Hlen in Hx.
  destruct (Hwf _ Hx) as [r [k H]]. exists r.
  eapply compressed_root_in; [by split|done].
Qed.

Lemma compressed_refl f : compressed f f.
Proof. split; [done|]. intros y ny Hy. exists ny. auto. Qed.

Lemma compressed_trans f1 f2 f3 :
  wf f1 -> compressed f1 f2 -> compressed f2 f3 -> compressed f1 f3.
Proof.
  intros Hwf H12 H23. pose proof H12 as [Hlen12 Hc12].
  destruct H23 as [Hlen23 Hc23]. split; [congruence|].
  intros y ny Hy.
  destruct (Hc12 _ _ Hy) as (ny2 & Hy2 & Hr2 & Hm2 & Hp2).
  destruct (Hc23 _ _ Hy2) as (ny3 & Hy3 & Hr3 & Hm3 & Hp3).
  exists ny3. split; [done|]. split; [congruence|]. split; [congruence|].
  destruct Hp3 as [Hp3|Hp3].
  - rewrite Hp3. done.
  - right. by apply (compressed_root_of f1 f2).
Qed.

(** [find] on a forest, in one statement. *)
Lemma find_ok f x :
  wf f -> x < length f ->
  exists f' r, find x f = (f', Ok r) /\ root_of f x r /\
    find_post f x r f' /\ compressed f f' /\ wf f'.
Proof.
  intros Hwf Hx. destruct (Hwf _ Hx) as [r Hr].
  destruct (find_total _ _ _ Hr) as (f' & Hfind & Hpost).
  assert (compressed f f') by (eapply find_post_compressed; done).
  exists f', r. eauto 6 using compressed_wf.
Qed.

Lemma rep_root_of f x r :
  wf f -> x < length f -> rep f x = Ok r <-> root_of f x r.
Proof.
  intros Hwf Hx. destruct (find_ok _ _ Hwf Hx) as (f' & r0 & Hf & Hr0 & _).
  unfold rep. rewrite Hf. simpl. split.
  - by intros [= ->].
  - intros Hr. by rewrite (root_of_det _ _ _ _ Hr Hr0).
Qed.

Lemma rep_compressed f f' x :
  wf f -> compressed f f' -> x < length f -> rep f' x = rep f x.
Proof.
  intros Hwf Hc Hx. destruct (Hwf _ Hx) as [r Hr].
  assert (rep f x = Ok r) as -> by by apply rep_root_of.
  apply rep_root_of.
  - by eapply compressed_wf.
  - destruct Hc as [-> _]. done.
  - by apply (compressed_root_of f f').
Qed.

(** ** Linking one representative under another *)

Lemma root_in_ext f f' k y r :
  (forall z, parent <$> f !! z = parent <$> f' !! z) ->
  root_in f k y r -> root_in f' k y r.
Proof.
  intros Hext. induction 1 as [x nx Hx Hp | k x nx r Hx Hp H IH].
  - pose proof (Hext x) as He. rewrite Hx in He. simpl in He.
    destruct (f' !! x) as [nx'|] eqn:Hx'; simplify_eq/=.
    econstructor; [done|congruence].
  - pose proof (Hext x) as He. rewrite Hx in He. simpl in He.
    destruct (f' !! x) as [nx'|] eqn:Hx'; simplify_eq/=.
    econstructor; [done|congruence|]. congruence.
Qed.

Lemma merged_length f2 w l f' : merged f2 w l f' -> length f' = length f2.
Proof.
  intros (nw & nl & _ & _ & _ & _ & _ & _ & ->).
  destruct (_ =? _)%Z; by rewrite ?length_insert.
Qed.

(** The parent links after the merge. *)
Lemma merged_parent f2 w l f' z :
  merged f2 w l f' ->
  parent <$> f' !! z =
    if decide (z = l) then Some w else parent <$> f2 !! z.
Proof.
  intros (nw & nl & Hw & Hl & Hne & Hpw & Hpl & _ & ->).
  assert (parent <$> <[l := set_parent w nl]> f2 !! z =
          if decide (z = l) then Some w else parent <$> f2 !! z) as Hlink.
  { case_decide as Hz.
    - subst z. by rewrite list_lookup_insert_eq by eauto using lookup_lt_Some.
    - by rewrite list_lookup_insert_ne. }
  destruct (_ =? _)%Z; [|done].
  destruct (decide (z = w)) as [->|Hzw].
  - rewrite list_lookup_insert_eq
      by (rewrite length_insert; eauto using lookup_lt_Some).
    rewrite decide_False by done. by rewrite Hw.
  - by rewrite list_lookup_insert_ne.
Qed.

Lemma merged_root_in f2 w l f' k y r :
  merged f2 w l f' -> root_in f2 k y r ->
  root_of f' y (if decide (r = l) then w else r).
Proof.
  intros Hm. pose proof Hm as (nw & nl & Hw & Hl & Hne & Hpw & Hpl & _ & _).
  assert (forall z p, parent <$> f' !! z = Some p ->
            exists nz, f' !! z = Some nz /\ parent nz = p) as Hget.
  { intros z p Hz. destruct (f' !! z) as [nz|]; simplify_eq/=. eauto. }
  assert (root_in f' 0 w w) as Hw'.
  { pose proof (merged_parent _ _ _ _ w Hm) as Hp.
    rewrite decide_False, Hw in Hp by done. simpl in Hp. rewrite Hpw in Hp.
    destruct (Hget _ _ Hp) as (nz & ? & ?). by econstructor. }
  induction 1 as [x nx Hx Hp | k x nx r Hx Hp H [k' IH]].
  - case_decide as Hxl.
    + rewrite Hxl. pose proof (merged_parent _ _ _ _ l Hm) as Hpar.
      rewrite decide_True in Hpar by done.
      destruct (Hget _ _ Hpar) as (nz & ? & Hz). exists 1.
      econstructor; [done|congruence|]. by rewrite Hz.
    + pose proof (merged_parent _ _ _ _ x Hm) as Hpar.
      rewrite decide_False, Hx in Hpar by done. simpl in Hpar.
      destruct (Hget _ _ Hpar) as (nz & ? & Hz). exists 0.
      econstructor; [done|congruence].
  - assert (x <> l) as Hxl by (intros ->; congruence).
    pose proof (merged_parent _ _ _ _ x Hm) as Hpar.
    rewrite decide_False, Hx in Hpar by done. simpl in Hpar.
    destruct (Hget _ _ Hpar) as (nz & ? & Hz). exists (S k').
    econstructor; [done|congruence|]. by rewrite Hz.
Qed.

Lemma merged_wf f2 w l f' : wf f2 -> merged f2 w l f' -> wf f'.
Proof.
  intros Hwf Hm x Hx. rewrite (merged_length _ _ _ _ Hm) in Hx.
  destruct (Hwf _ Hx) as [r [k H]]. eauto using merged_root_in.
Qed.

Lemma merged_root_of f2 w l f' y r :
  wf f2 -> merged f2 w l f' ->
  root_of f' y r <->
  exists r2, root_of f2 y r2 /\ r = (if decide (r2 = l) then w else r2).
Proof.
  intros Hwf Hm. split.
  - intros H'. destruct (root_of_lt _ _ _ H') as [Hy _].
    rewrite (merged_length _ _ _ _ Hm) in Hy.
    destruct (Hwf _ Hy) as [r2 [k H2]]. exists r2. split; [by exists k|].
    eapply root_of_det; [done|]. by eapply merged_root_in.
  - intros (r2 & [k H2] & ->). by eapply merged_root_in.
Qed.

(** ** nodeUnion *)

Lemma root_of_self_node f x r :
  root_of f x r -> exists nr, f !! r = Some nr /\ parent nr = r.
Proof.
  intros [k H]. apply root_in_root in H.
  inversion H; subst; eauto.
Qed.

Lemma nodeUnion_ok f a b :
  wf f -> a < length f -> b < length f ->
  exists f', nodeUnion a b f = (f', Ok tt) /\ union_post f a b f'.
Proof.
  intros Hwf Ha Hb.
  destruct (find_ok _ _ Hwf Ha) as (f1 & ra & Hfa & Hra & Hpa & Hc1 & Hwf1).
  assert (b < length f1) as Hb1 by (destruct Hc1 as [-> _]; done).
  destruct (find_ok _ _ Hwf1 Hb1) as (f2 & rb & Hfb & Hrb1 & Hpb & Hc2 & Hwf2).
  assert (root_of f b rb) as Hrb by by apply (compressed_root_of f f1).
  assert (compressed f f2) as Hc by eauto using compressed_trans.
  assert (root_of f2 ra ra) as Hra2.
  { apply (compressed_root_of f f2); [done..|]. by eapply root_of_self. }
  assert (root_of f2 rb rb) as Hrb2.
  { apply (compressed_root_of f f2); [done..|]. by eapply root_of_self. }
  destruct (root_of_self_node _ _ _ Hra2) as (na & Hna & Hpna).
  destruct (root_of_self_node _ _ _ Hrb2) as (nb & Hnb & Hpnb).
  unfold nodeUnion. unfold bind at 1. rewrite Hfa.
  unfold bind at 1. rewrite Hfb.
  destruct (decide (ra = rb)) as [Heq|Hne].
  { exists f2. split; [done|]. exists ra, rb, f1, f2.
    split_and!; done. }
  unfold bind at 1. unfold load at 1. rewrite Hna.
  unfold bind at 1. unfold load at 1. rewrite Hnb.
  destruct (rank na <? rank nb)%Z eqn:Hlt.
  - apply Z.ltb_lt in Hlt.
    eexists. split.
    + unfold bind, store, load, ret. rewrite Hna.
      rewrite list_lookup_insert_ne by done. rewrite Hnb.
      rewrite list_lookup_insert_eq by eauto using lookup_lt_Some.
      simpl. destruct (rank nb =? rank na)%Z eqn:Heqb; [|reflexivity].
      apply Z.eqb_eq in Heqb. lia.
    + exists ra, rb, f1, f2. split_and!; try done.
      intros _. exists na, nb. split; [done|]. split; [done|].
      replace (rank na <? rank nb)%Z with true by (symmetry; by apply Z.ltb_lt).
      exists nb, na. split_and!; try done; try lia.
      destruct (rank nb =? rank na)%Z eqn:Heqb; [|reflexivity].
      apply Z.eqb_eq in Heqb. lia.
  - apply Z.ltb_ge in Hlt.
    exists (if (rank na =? rank nb)%Z
            then <[ra := set_rank (wrap (rank na + 1)) na]>
                   (<[rb := set_parent ra nb]> f2)
            else <[rb := set_parent ra nb]> f2).
    split.
    + unfold bind, store, load, ret. rewrite Hnb.
      rewrite list_lookup_insert_ne by done. rewrite Hna.
      rewrite list_lookup_insert_eq by eauto using lookup_lt_Some.
      simpl. destruct (rank na =? rank nb)%Z eqn:Heqb; [|reflexivity].
      rewrite list_lookup_insert_ne by done. rewrite Hna. reflexivity.
    + exists ra, rb, f1, f2. split_and!; try done.
      intros _. exists na, nb. split; [done|]. split; [done|].
      replace (rank na <? rank nb)%Z with false by (symmetry; by apply Z.ltb_ge).
      exists na, nb. split_and!; try done; try lia.
Qed.

(** The representatives after a [nodeUnion]: those that were the losing
    representative [l] become the winning one [w], the others stay. *)
Lemma union_post_roots f a b f' :
  wf f -> union_post f a b f' ->
  wf f' /\ length f' = length f /\
  exists ra rb w l,
    root_of f a ra /\ root_of f b rb /\
    ((w = ra /\ l = rb) \/ (w = rb /\ l = ra)) /\
    forall y r, root_of f' y r <->
      exists r2, root_of f y r2 /\ r = (if decide (r2 = l) then w else r2).
Proof.
  intros Hwf (ra & rb & f1 & f2 & _ & _ & Hra & Hrb & _ & _ & _ & Hc & _ &
              Hwf2 & Hsame & Hdiff).
  destruct (decide (ra = rb)) as [Heq|Hne].
  - rewrite (Hsame Heq). split; [done|]. split; [by destruct Hc|].
    exists ra, rb, ra, rb. split_and!; auto.
    intros y r. rewrite (compressed_root_of f f2) by done. split.
    + intros Hy. exists r. split; [done|]. case_decide; congruence.
    + intros (r2 & Hy & ->). case_decide; congruence.
  - destruct (Hdiff Hne) as (na & nb & _ & _ & Hm).
    assert (exists w l, merged f2 w l f' /\
              ((w = ra /\ l = rb) \/ (w = rb /\ l = ra))) as (w & l & Hm' & Hwl).
    { destruct (_ <? _)%Z; eauto 10. }
    split; [by eapply merged_wf|].
    split; [rewrite (merged_length _ _ _ _ Hm'); by destruct Hc|].
    exists ra, rb, w, l. split_and!; try done.
    intros y r. rewrite (merged_root_of f2 w l f') by done.
    split; intros (r2 & Hy & ->); exists r2; (split; [|done]);
      by apply (compressed_root_of f f2).
Qed.

Lemma union_post_joins f a b f' :
  wf f -> union_post f a b f' ->
  exists r, root_of f' a r /\ root_of f' b r.
Proof.
  intros Hwf Hu.
  destruct (union_post_roots _ _ _ _ Hwf Hu)
    as (_ & _ & ra & rb & w & l & Hra & Hrb & Hwl & Hroots).
  exists w. split; apply Hroots.
  - exists ra. split; [done|].
    destruct Hwl as [[-> ->]|[-> ->]]; case_decide; congruence.
  - exists rb. split; [done|].
    destruct Hwl as [[-> ->]|[-> ->]]; case_decide; congruence.
Qed.

(** ** query *)

Lemma query_ok f a b :
  wf f -> a < length f -> b < length f ->
  exists f' ra rb,
    query a b f = (f', Ok (bool_decide (ra = rb))) /\
    root_of f a ra /\ root_of f b rb /\ compressed f f' /\ wf f'.
Proof.
  intros Hwf Ha Hb.
  destruct (find_ok _ _ Hwf Ha) as (f1 & ra & Hfa & Hra & Hpa & Hc1 & Hwf1).
  assert (b < length f1) as Hb1 by (destruct Hc1 as [-> _]; done).
  destruct (find_ok _ _ Hwf1 Hb1) as (f2 & rb & Hfb & Hrb1 & Hpb & Hc2 & Hwf2).
  exists f2, ra, rb. unfold query, bind. rewrite Hfa, Hfb.
  split_and!; try done.
  - by apply (compressed_root_of f f1).
  - eauto using compressed_trans.
Qed.

Lemma same_group_true f a b :
  wf f -> a < length f -> b < length f ->
  same_group f a b = Ok true <-> exists r, root_of f a r /\ root_of f b r.
Proof.
  intros Hwf Ha Hb.
  destruct (query_ok _ _ _ Hwf Ha Hb) as (f' & ra & rb & Hq & Hra & Hrb & _).
  unfold same_group. rewrite Hq. simpl. split.
  - intros [= Heq%bool_decide_eq_true]. subst rb. eauto.
  - intros (r & Ha' & Hb').
    rewrite (root_of_det _ _ _ _ Hra Ha'), (root_of_det _ _ _ _ Hrb Hb').
    by rewrite bool_decide_eq_true_2.
Qed.

Lemma same_group_ok f a b :
  wf f -> a < length f -> b < length f ->
  exists t, same_group f a b = Ok t.
Proof.
  intros Hwf Ha Hb.
  destruct (query_ok _ _ _ Hwf Ha Hb) as (f' & ra & rb & Hq & _).
  unfold same_group. rewrite Hq. eauto.
Qed.

(** ** The values are never written *)

Lemma same_money_value f f' y : same_money f f' -> value f' y = value f y.
Proof. intros H. unfold value. by rewrite H. Qed.

Lemma same_money_trans f1 f2 f3 :
  same_money f1 f2 -> same_money f2 f3 -> same_money f1 f3.
Proof. intros H12 H23 y. by rewrite H23, H12. Qed.

Lemma compressed_money f f' : compressed f f' -> same_money f f'.
Proof.
  intros [Hlen Hc] y. destruct (f !! y) as [ny|] eqn:Hy.
  - destruct (Hc _ _ Hy) as (ny' & -> & _ & Hm & _). simpl. by rewrite Hm.
  - apply lookup_ge_None in Hy. rewrite <- Hlen in Hy.
    apply lookup_ge_None in Hy. by rewrite Hy.
Qed.

Lemma merged_money f2 w l f' : merged f2 w l f' -> same_money f2 f'.
Proof.
  intros (nw & nl & Hw & Hl & Hne & _ & _ & _ & ->) y.
  assert (money <$> <[l := set_parent w nl]> f2 !! y = money <$> f2 !! y)
    as Hlink.
  { destruct (decide (y = l)) as [->|Hyl].
    - rewrite list_lookup_insert_eq by eauto using lookup_lt_Some.
      by rewrite Hl.
    - by rewrite list_lookup_insert_ne. }
  destruct (_ =? _)%Z; [|done].
  destruct (decide (y = w)) as [->|Hyw].
  - rewrite list_lookup_insert_eq
      by (rewrite length_insert; eauto using lookup_lt_Some).
    by rewrite Hw.
  - by rewrite list_lookup_insert_ne.
Qed.

Lemma union_post_money f a b f' :
  wf f -> union_post f a b f' -> same_money f f'.
Proof.
  intros Hwf (ra & rb & f1 & f2 & _ & _ & _ & _ & _ & _ & _ & Hc & _ &
              _ & Hsame & Hdiff).
  apply compressed_money in Hc.
  destruct (decide (ra = rb)) as [Heq|Hne].
  - by rewrite (Hsame Heq).
  - destruct (Hdiff Hne) as (na & nb & _ & _ & Hm).
    eapply same_money_trans; [done|].
    destruct (_ <? _)%Z; by eapply merged_money.
Qed.

(** ** Sequences of operations *)

Lemma coarsens_compressed f f' : wf f -> compressed f f' -> coarsens f f'.
Proof.
  intros Hwf Hc x y r Hx Hy. exists r.
  by rewrite !(compressed_root_of f f').
Qed.

Lemma coarsens_trans f1 f2 f3 :
  coarsens f1 f2 -> coarsens f2 f3 -> coarsens f1 f3.
Proof.
  intros H12 H23 x y r Hx Hy.
  destruct (H12 _ _ _ Hx Hy) as (r' & Hx' & Hy'). eauto.
Qed.

Lemma run_op_ok f o :
  wf f -> valid_op (length f) o ->
  exists f', run_op o f = (f', Ok tt) /\
    wf f' /\ length f' = length f /\ coarsens f f' /\ same_money f f'.
Proof.
  intros Hwf Hv. destruct o as [x|a b|a b]; simpl in Hv.
  - destruct (find_ok _ _ Hwf Hv) as (f' & r & Hf & _ & _ & Hc & Hwf').
    exists f'. simpl. unfold bind, ret. rewrite Hf.
    split_and!; try done;
      [by destruct Hc|by apply coarsens_compressed|by apply compressed_money].
  - destruct Hv as [Ha Hb].
    destruct (nodeUnion_ok _ _ _ Hwf Ha Hb) as (f' & Hu & Hpost).
    exists f'. split; [done|].
    destruct (union_post_roots _ _ _ _ Hwf Hpost)
      as (Hwf' & Hlen & ra & rb & w & l & _ & _ & _ & Hroots).
    split_and!; try done; [|by eapply union_post_money].
    intros x y r Hx Hy. exists (if decide (r = l) then w else r).
    split; apply Hroots; eauto.
  - destruct Hv as [Ha Hb].
    destruct (query_ok _ _ _ Hwf Ha Hb) as (f' & ra & rb & Hq & _ & _ & Hc & ?).
    exists f'. simpl. unfold bind, ret. rewrite Hq.
    split_and!; try done;
      [by destruct Hc|by apply coarsens_compressed|by apply compressed_money].
Qed.

Lemma run_ops_ok f ops :
  wf f -> Forall (valid_op (length f)) ops ->
  exists f', run_ops ops f = (f', Ok tt) /\
    wf f' /\ length f' = length f /\ coarsens f f' /\ same_money f f'.
Proof.
  intros Hwf Hv. revert f Hwf Hv.
  induction ops as [|o ops IH]; intros f Hwf Hv.
  - exists f. split_and!; try done. intros x y r; eauto.
  - apply Forall_cons in Hv as [Ho Hops].
    destruct (run_op_ok _ _ Hwf Ho) as (f1 & Hrun & Hwf1 & Hlen1 & Hco1 & Hm1).
    rewrite <- Hlen1 in Hops.
    destruct (IH _ Hwf1 Hops) as (f2 & Hrun2 & Hwf2 & Hlen2 & Hco2 & Hm2).
    exists f2. simpl. unfold bind. rewrite Hrun.
    split_and!; try done;
      [congruence|by eapply coarsens_trans|by eapply same_money_trans].
Qed.

(** The forest built by the first loop of [main]. *)
Lemma make_length ms : length (make ms) = length ms.
Proof. apply length_imap. Qed.

Lemma make_lookup ms i :
  make ms !! i = (fun m => mkNode i 0 m) <$> ms !! i.
Proof. unfold make. by rewrite list_lookup_imap. Qed.

Lemma make_wf ms : wf (make ms).
Proof.
  intros x Hx. rewrite make_length in Hx.
  destruct (lookup_lt_is_Some_2 ms x Hx) as [m Hm].
  exists x, 0. econstructor; [by rewrite make_lookup, Hm|done].
Qed.

(** ** Group sums *)

Lemma wrap_wrap_add a b : wrap (wrap a + b) = wrap (a + b).
Proof.
  unfold wrap.
  replace ((a + 2 ^ 31) `mod` 2 ^ 32 - 2 ^ 31 + b + 2 ^ 31)%Z
    with ((a + 2 ^ 31) `mod` 2 ^ 32 + b)%Z by lia.
  rewrite Zplus_mod_idemp_l. f_equal. f_equal. lia.
Qed.

Lemma wrap_0 : wrap 0 = 0%Z.
Proof. reflexivity. Qed.

Lemma wrap_small z : in_int z -> wrap z = z.
Proof.
  unfold in_int, INT_MIN, INT_MAX, wrap. intros Hz.
  rewrite Z.mod_small; lia.
Qed.

Lemma wrap_in_int z : in_int (wrap z).
Proof.
  unfold in_int, INT_MIN, INT_MAX, wrap.
  pose proof (Z.mod_pos_bound (z + 2 ^ 31) (2 ^ 32) ltac:(lia)). lia.
Qed.

Lemma zsum_app l1 l2 : zsum (l1 ++ l2) = (zsum l1 + zsum l2)%Z.
Proof. induction l1 as [|a l1 IH]; simpl; [done|]. rewrite IH. lia. Qed.

Lemma zsum_perm l1 l2 : l1 ≡ₚ l2 -> zsum l1 = zsum l2.
Proof. induction 1; simpl; lia. Qed.

Lemma int_sum_from acc l :
  foldl (fun total v => wrap (total + v)) (wrap acc) l = wrap (acc + zsum l).
Proof.
  revert acc. induction l as [|v l IH]; intros acc; simpl.
  - f_equal. lia.
  - rewrite wrap_wrap_add, IH. f_equal. lia.
Qed.

(** The running total is the ideal sum reduced to [int]. *)
Lemma int_sum_wrap l : int_sum l = wrap (zsum l).
Proof. unfold int_sum. rewrite <- wrap_0 at 1. by rewrite int_sum_from. Qed.

Lemma members_in_app f l1 l2 r :
  members_in f (l1 ++ l2) r = members_in f l1 r ++ members_in f l2 r.
Proof. apply filter_app. Qed.

Lemma members_in_perm f l1 l2 r :
  l1 ≡ₚ l2 -> members_in f l1 r ≡ₚ members_in f l2 r.
Proof. intros H. unfold members_in. by rewrite H. Qed.

(** ** The aggregation loop *)

Lemma members_in_one f i r :
  members_in f [i] r = if decide (rep f i = Ok r) then [i] else [].
Proof.
  unfold members_in. rewrite filter_cons. by case_decide.
Qed.

Lemma scan_step_ok f0 fc done sums i :
  wf f0 -> compressed f0 fc -> i < length f0 -> sums_inv f0 done sums ->
  exists fc' sums',
    scan_step i sums fc = (fc', Ok sums') /\
    compressed f0 fc' /\ sums_inv f0 (done ++ [i]) sums'.
Proof.
  intros Hwf Hc Hi Hinv.
  assert (wf fc) as Hwfc by eauto using compressed_wf.
  assert (i < length fc) as Hic by (destruct Hc as [-> _]; done).
  destruct (find_ok _ _ Hwfc Hic) as (fc1 & r & Hf & Hr & _ & Hc1 & _).
  assert (compressed f0 fc1) as Hc01 by eauto using compressed_trans.
  assert (rep f0 i = Ok r) as Hrep.
  { apply rep_root_of; [done..|]. by apply (compressed_root_of f0 fc). }
  assert (exists ni, fc1 !! i = Some ni /\ money ni = value f0 i)
    as (ni & Hni & Hval).
  { pose proof (compressed_money _ _ Hc01 i) as Hm. unfold value.
    destruct (fc1 !! i) as [ni|] eqn:Hni.
    - exists ni. split; [done|]. by rewrite <- Hm.
    - apply lookup_ge_None in Hni. destruct Hc01 as [Hlen _]. lia. }
  eexists fc1, _. split.
  { unfold scan_step, bind. rewrite Hf. unfold load, ret. rewrite Hni.
    reflexivity. }
  split; [done|]. intros r'.
  assert (members_in f0 [i] r' = if decide (r' = r) then [i] else [])
    as Hone.
  { rewrite members_in_one, Hrep. repeat case_decide; congruence. }
  rewrite members_in_app, Hone, fmap_app, zsum_app.
  pose proof (Hinv r') as Hr'.
  destruct (decide (r' = r)) as [->|Hne].
  - rewrite lookup_insert_eq.
    rewrite decide_False by (by intros [_ ?]%app_eq_nil).
    f_equal. simpl. rewrite Hval.
    destruct (decide (members_in f0 done r = [])) as [Hnil|Hnil].
    + rewrite Hr'. rewrite lookup_insert_eq. rewrite Hnil. simpl.
      f_equal. lia.
    + rewrite Hr'. simpl. rewrite Hr'. simpl.
      rewrite wrap_wrap_add. f_equal. lia.
  - rewrite app_nil_r. simpl. rewrite Z.add_0_r.
    rewrite lookup_insert_ne by done.
    destruct (sums !! r); [done|]. by rewrite lookup_insert_ne.
Qed.

Lemma scan_ok f0 order :
  wf f0 -> Forall (fun i => i < length f0) order ->
  forall done fc sums,
    compressed f0 fc -> sums_inv f0 done sums ->
    exists fc' sums',
      scan order sums fc = (fc', Ok sums') /\
      compressed f0 fc' /\ sums_inv f0 (done ++ order) sums'.
Proof.
  intros Hwf. induction 1 as [|i order Hi Hrest IH]; intros done fc sums Hc Hinv.
  - exists fc, sums. rewrite app_nil_r. done.
  - destruct (scan_step_ok _ _ _ _ _ Hwf Hc Hi Hinv)
      as (fc1 & sums1 & Hstep & Hc1 & Hinv1).
    destruct (IH _ _ _ Hc1 Hinv1) as (fc2 & sums2 & Hscan & Hc2 & Hinv2).
    exists fc2, sums2. simpl. unfold bind at 1. rewrite Hstep.
    rewrite <- app_assoc in Hinv2. done.
Qed.

Lemma scan_sums_possible l :
  scan_sums l = POSSIBLE <-> Forall (fun rs => rs.2 = 0%Z) l.
Proof.
  induction l as [|[r s] l IH]; simpl.
  - split; [constructor|done].
  - rewrite Forall_cons. simpl. destruct (Z.eqb_spec s 0).
    + rewrite IH. split; [by split|by intros [_ ?]].
    + split; [done|]. by intros [? _].
Qed.

(** The last loop does not depend on the order in which the map is
    walked. *)
Lemma scan_sums_perm l1 l2 : l1 ≡ₚ l2 -> scan_sums l1 = scan_sums l2.
Proof.
  intros Hp.
  assert (forall l, scan_sums l = IMPOSSIBLE <-> scan_sums l <> POSSIBLE) as Himp.
  { intros l. destruct (scan_sums l); split; congruence. }
  destruct (scan_sums l1) eqn:H1.
  - symmetry. apply scan_sums_possible. rewrite <- Hp.
    by apply scan_sums_possible.
  - symmetry. apply Himp. rewrite scan_sums_possible, <- Hp.
    rewrite <- scan_sums_possible. congruence.
Qed.

(** The verdict of the scan in a given order. *)
Lemma verify_scan_ok f order :
  wf f -> Forall (fun i => i < length f) order ->
  exists f' v,
    verify_scan order f = (f', Ok v) /\ compressed f f' /\
    (v = POSSIBLE <->
     forall r, wrap (zsum (value f <$> members_in f order r)) = 0%Z).
Proof.
  intros Hwf Hord.
  assert (sums_inv f [] ∅) as Hinv0.
  { intros r. rewrite lookup_empty. by rewrite decide_True. }
  destruct (scan_ok _ _ Hwf Hord [] f ∅ (compressed_refl f) Hinv0)
    as (f' & sums & Hscan & Hc & Hinv).
  simpl in Hinv.
  exists f', (scan_sums (map_to_list sums)).
  split; [unfold verify_scan, bind, ret; by rewrite Hscan|].
  split; [done|].
  rewrite scan_sums_possible, Forall_forall. split.
  - intros Hall r. pose proof (Hinv r) as Hr.
    destruct (decide (members_in f order r = [])) as [->|_]; [done|].
    apply elem_of_map_to_list in Hr. apply (Hall _ Hr).
  - intros Hall [r s] Hrs%elem_of_map_to_list. simpl.
    rewrite Hinv in Hrs. case_decide; [done|].
    injection Hrs as <-. apply Hall.
Qed.

(** ** Consequences for sequences of calls *)

Lemma finds_ok f xs :
  wf f -> Forall (fun x => x < length f) xs ->
  exists f', finds xs f = (f', Ok tt) /\ compressed f f'.
Proof.
  intros Hwf Hxs. revert f Hwf Hxs.
  induction xs as [|x xs IH]; intros f Hwf Hxs.
  - exists f. split; [done|apply compressed_refl].
  - apply Forall_cons in Hxs as [Hx Hxs].
    destruct (find_ok _ _ Hwf Hx) as (f1 & r & Hf & _ & _ & Hc1 & Hwf1).
    assert (length f1 = length f) as Hlen by by destruct Hc1.
    rewrite <- Hlen in Hxs.
    destruct (IH _ Hwf1 Hxs) as (f2 & Hfs & Hc2).
    exists f2. simpl. unfold bind. rewrite Hf.
    eauto using compressed_trans.
Qed.

Lemma same_group_compressed f f' a b :
  wf f -> compressed f f' -> a < length f -> b < length f ->
  same_group f' a b = same_group f a b.
Proof.
  intros Hwf Hc Ha Hb.
  assert (wf f') as Hwf' by eauto using compressed_wf.
  assert (length f' = length f) as Hlen by by destruct Hc.
  destruct (query_ok f a b) as (? & ra & rb & Hq & Hra & Hrb & _); [done..|].
  destruct (query_ok f' a b) as (? & ra' & rb' & Hq' & Hra' & Hrb' & _);
    [done|lia|lia|].
  apply (compressed_root_of f f') in Hra', Hrb'; [|done..].
  unfold same_group. rewrite Hq, Hq'. simpl.
  by rewrite (root_of_det _ _ _ _ Hra Hra'), (root_of_det _ _ _ _ Hrb Hrb').
Qed.

Lemma union_post_same f a b f' r :
  wf f -> union_post f a b f' -> root_of f a r -> root_of f b r ->
  compressed f f'.
Proof.
  intros Hwf (ra & rb & f1 & f2 & _ & _ & Hra & Hrb & _ & _ & _ & Hc & _ &
              _ & Hsame & _) Ha Hb.
  rewrite Hsame; [done|].
  by rewrite (root_of_det _ _ _ _ Hra Ha), (root_of_det _ _ _ _ Hrb Hb).
Qed.

Lemma root_in_follow f k x r j y :
  root_in f k x r -> follow f j x = Some y -> root_in f (k - j) y r.
Proof.
  intros H. revert j.
  induction H as [x nx Hx Hp | k x nx r Hx Hp H IH]; intros j Hj.
  - assert (y = x) as ->; [|simpl; eauto using root_in].
    induction j as [|j IHj]; simpl in Hj; [congruence|].
    rewrite Hx, Hp in Hj. auto.
  - destruct j as [|j]; simpl in Hj.
    + injection Hj as <-. eauto using root_in.
    + rewrite Hx in Hj. simpl. auto.
Qed.

(** C2: on a forest, [find x] returns the representative of [x]; the call
    leaves the heap as it was except that every node on the path from [x]
    has the representative as parent (ranks and values untouched); the
    representative of every entity, and so the answer of [same_group], is
    the same after the call, and after any sequence of [find] calls. *)
Theorem find_returns_root_and_compresses f x :
  wf f -> x < length f ->
  exists f' r,
    find x f = (f', Ok r) /\ root_of f x r /\
    length f' = length f /\
    (forall y ny, f !! y = Some ny ->
       exists ny', f' !! y = Some ny' /\
         rank ny' = rank ny /\ money ny' = money ny /\
         (on_path f x y -> parent ny' = r) /\
         (~ on_path f x y -> ny' = ny)) /\
    (forall y r', root_of f' y r' <-> root_of f y r') /\
    (forall xs, Forall (fun z => z < length f) xs ->
       exists f'', finds xs f = (f'', Ok tt) /\
         (forall y r', root_of f'' y r' <-> root_of f y r') /\
         (forall a b, a < length f -> b < length f ->
            same_group f'' a b = same_group f a b)).
Proof.
  intros Hwf Hx.
  destruct (find_ok _ _ Hwf Hx) as (f' & r & Hf & Hr & [Hlen Hpost] & Hc & _).
  exists f', r. split_and!; try done.
  - intros y r'. by apply compressed_root_of.
  - intros xs Hxs. destruct (finds_ok _ _ Hwf Hxs) as (f'' & Hfs & Hc').
    exists f''. split_and!; try done.
    + intros y r'. by apply compressed_root_of.
    + intros a b Ha Hb. by apply same_group_compressed.
Qed.

(** C6: calling [nodeUnion a b] a second time leaves what [find a] and
    [find b] return as they are after the first call (and the two are
    equal). *)
Theorem union_idempotent f a b :
  wf f -> a < length f -> b < length f ->
  exists f1 f2 r,
    nodeUnion a b f = (f1, Ok tt) /\ nodeUnion a b f1 = (f2, Ok tt) /\
    rep f1 a = Ok r /\ rep f1 b = Ok r /\
    rep f2 a = rep f1 a /\ rep f2 b = rep f1 b.
Proof.
  intros Hwf Ha Hb.
  destruct (nodeUnion_ok _ _ _ Hwf Ha Hb) as (f1 & Hu1 & Hp1).
  destruct (union_post_roots _ _ _ _ Hwf Hp1) as (Hwf1 & Hlen1 & _).
  destruct (union_post_joins _ _ _ _ Hwf Hp1) as (r & Hra & Hrb).
  assert (a < length f1) as Ha1 by lia.
  assert (b < length f1) as Hb1 by lia.
  destruct (nodeUnion_ok _ _ _ Hwf1 Ha1 Hb1) as (f2 & Hu2 & Hp2).
  pose proof (union_post_same _ _ _ _ _ Hwf1 Hp2 Hra Hrb) as Hc.
  exists f1, f2, r. split_and!; try done.
  - by apply rep_root_of.
  - by apply rep_root_of.
  - by apply rep_compressed.
  - by apply rep_compressed.
Qed.

(** C7: two entities of one group stay in one group: when
    [same_group a b] holds in a forest, it holds after any further
    sequence of [find], [nodeUnion] and [query] calls. *)
Theorem groups_only_coarsen f a b ops :
  wf f -> a < length f -> b < length f ->
  Forall (valid_op (length f)) ops ->
  same_group f a b = Ok true ->
  exists f', run_ops ops f = (f', Ok tt) /\ same_group f' a b = Ok true.
Proof.
  intros Hwf Ha Hb Hops Hsame.
  destruct (run_ops_ok _ _ Hwf Hops) as (f' & Hrun & Hwf' & Hlen & Hco & _).
  exists f'. split; [done|].
  apply same_group_true in Hsame as (r & Hra & Hrb); [|done..].
  apply same_group_true; [done|lia|lia|]. eauto.
Qed.

(** C9: in every state reached from the initial forest by [find],
    [nodeUnion] and [query] calls, every entity reaches in fewer than [n]
    parent links a node that is its own parent, and the only cycles of the
    parent links are these self-loops. *)
Theorem forest_acyclic_invariant ms ops :
  Forall (valid_op (length ms)) ops ->
  exists f,
    run_ops ops (make ms) = (f, Ok tt) /\ length f = length ms /\
    (forall x, x < length f ->
       exists k r, k < length f /\ root_in f k x r /\
         follow f k x = Some r /\ follow f 1 r = Some r) /\
    (forall x k, 0 < k -> follow f k x = Some x -> follow f 1 x = Some x).
Proof.
  intros Hops. rewrite <- make_length in Hops.
  destruct (run_ops_ok _ _ (make_wf ms) Hops) as (f & Hrun & Hwf & Hlen & _).
  exists f. split; [done|]. split; [by rewrite Hlen, make_length|].
  assert (forall k x r, root_in f k x r -> follow f k x = Some r) as Hfollow.
  { induction 1 as [|k x nx r Hx Hp H IH]; simpl; [done|]. by rewrite Hx. }
  split.
  - intros x Hx. destruct (Hwf _ Hx) as (r & k & H). exists k, r.
    split; [by eapply root_in_bound|]. split; [done|].
    split; [by apply Hfollow|].
    destruct (root_of_self_node f x r) as (nr & Hr & Hp); [by exists k|].
    simpl. by rewrite Hr, Hp.
  - intros x k Hk Hcycle.
    assert (x < length f) as Hx.
    { destruct k; [lia|]. simpl in Hcycle.
      destruct (f !! x) eqn:E; [|done]. by eapply lookup_lt_Some. }
    destruct (Hwf _ Hx) as (r & d & H).
    pose proof (root_in_follow _ _ _ _ _ _ H Hcycle) as H'.
    destruct (root_in_det _ _ _ _ _ _ H H') as [Hd _].
    assert (d = 0) as -> by lia.
    inversion H as [? nx Hnx Hp|]. simpl. by rewrite Hnx, Hp.
Qed.

(** ** The verdict *)

Lemma verdict_cases (v1 v2 : verdict) :
  (v1 = POSSIBLE <-> v2 = POSSIBLE) -> v1 = v2.
Proof. destruct v1, v2; intros [H1 H2]; auto; symmetry; auto. Qed.

Lemma filter_ext_in {A} (P Q : A -> Prop)
    `{!forall x, Decision (P x), !forall x, Decision (Q x)} (l : list A) :
  (forall x, x ∈ l -> P x <-> Q x) -> filter P l = filter Q l.
Proof.
  induction l as [|a l IH]; intros Hext; [done|].
  rewrite !filter_cons.
  rewrite IH by (intros x Hx; apply Hext; by right).
  pose proof (Hext a ltac:(by left)) as Ha.
  repeat case_decide; tauto.
Qed.

Lemma value_seq f : value f <$> seq 0 (length f) = money <$> f.
Proof.
  apply list_eq. intros i. rewrite !list_lookup_fmap.
  destruct (f !! i) as [n|] eqn:Hi.
  - rewrite lookup_seq_lt by eauto using lookup_lt_Some. simpl.
    unfold value. by rewrite Hi.
  - rewrite lookup_seq_ge; [done|]. by apply lookup_ge_None.
Qed.

Lemma zsum_abs_sublist (l1 l2 : list Z) :
  l1 `sublist_of` l2 -> (Z.abs (zsum l1) <= zsum (Z.abs <$> l2))%Z.
Proof.
  unfold zsum. induction 1; [done|rewrite fmap_cons; cbn [foldr]; lia..].
Qed.

(** Within the bound no partial sum of a group leaves the [int] range. *)
Lemma group_prefix_in_int f r l :
  (abs_total f <= INT_MAX)%Z ->
  l `prefix_of` (value f <$> members f r) -> in_int (zsum l).
Proof.
  intros Hb [l' Hl].
  assert (l `sublist_of` (money <$> f)) as Hsub.
  { rewrite <- value_seq. etrans; [apply (sublist_inserts_r l' l); done|].
    rewrite <- Hl. unfold members, members_in.
    apply fmap_sublist, sublist_filter. }
  apply zsum_abs_sublist in Hsub.
  unfold abs_total in Hb. rewrite <- list_fmap_compose in Hsub.
  unfold in_int, INT_MIN, INT_MAX in *. unfold compose in Hsub. lia.
Qed.

Lemma group_sum_exact f r :
  (abs_total f <= INT_MAX)%Z -> group_sum f r = group_total f r.
Proof.
  intros Hb. unfold group_sum, group_total. rewrite int_sum_wrap.
  apply wrap_small. by eapply group_prefix_in_int.
Qed.

(** [verify] on a forest, with the totals as the loop computes them. *)
Lemma verify_ok f :
  wf f ->
  exists f' v,
    verify f = (f', Ok v) /\ compressed f f' /\
    (v = POSSIBLE <-> forall r, group_sum f r = 0%Z).
Proof.
  intros Hwf.
  destruct (verify_scan_ok f (seq 0 (length f)) Hwf)
    as (f' & v & Hv & Hc & Hiff).
  { apply Forall_seq. intros; lia. }
  exists f', v. split; [done|]. split; [done|].
  rewrite Hiff. unfold group_sum. by setoid_rewrite int_sum_wrap.
Qed.

Lemma members_root_of f r y :
  wf f -> y ∈ members f r <-> root_of f y r.
Proof.
  intros Hwf. unfold members, members_in.
  rewrite list_elem_of_filter, elem_of_seq. split.
  - intros [Hr Hy]. apply rep_root_of in Hr; [done..|lia].
  - intros Hr. destruct (root_of_lt _ _ _ Hr) as [Hy _].
    split; [|lia]. by apply rep_root_of.
Qed.

(** Any listing without repetition of the entities that reach [r] is the
    group of [r] up to order. *)
Lemma group_listing f r (l : list nat) :
  wf f -> NoDup l -> (forall y, y ∈ l <-> root_of f y r) ->
  l ≡ₚ members f r.
Proof.
  intros Hwf Hnd Hl. apply NoDup_Permutation; [done| |].
  - apply NoDup_filter, NoDup_seq.
  - intros y. by rewrite Hl, members_root_of.
Qed.

Lemma group_listing_sums f r (l : list nat) :
  wf f -> NoDup l -> (forall y, y ∈ l <-> root_of f y r) ->
  wrap (zsum (value f <$> l)) = group_sum f r /\
  zsum (value f <$> l) = group_total f r.
Proof.
  intros Hwf Hnd Hl. pose proof (group_listing f r l Hwf Hnd Hl) as Hp.
  unfold group_sum, group_total. rewrite int_sum_wrap.
  by rewrite (zsum_perm _ _ (fmap_Permutation (value f) _ _ Hp)).
Qed.

(** C1, as the code has it: on a forest, [verify] returns, and its verdict
    is [POSSIBLE] exactly when for every node [r] the values of the
    entities that reach [r] by parent links add up to a multiple of [2^32],
    that is to zero once reduced to [int] as the running total is, and
    [IMPOSSIBLE] otherwise.  A node that is no representative, and every
    node of the empty forest, has an empty group.  When the magnitudes of
    all values add up to at most [INT_MAX] the reduction changes nothing:
    the verdict is [POSSIBLE] exactly when every group has sum zero. *)
Theorem verify_possible_iff_group_sums_zero f :
  wf f ->
  exists f' v,
    verify f = (f', Ok v) /\
    (v = POSSIBLE <->
     forall r l, NoDup l -> (forall y, y ∈ l <-> root_of f y r) ->
       wrap (zsum (value f <$> l)) = 0%Z) /\
    (v = IMPOSSIBLE <->
     ~ forall r l, NoDup l -> (forall y, y ∈ l <-> root_of f y r) ->
         wrap (zsum (value f <$> l)) = 0%Z) /\
    ((abs_total f <= INT_MAX)%Z ->
       (v = POSSIBLE <->
        forall r l, NoDup l -> (forall y, y ∈ l <-> root_of f y r) ->
          zsum (value f <$> l) = 0%Z) /\
       (v = IMPOSSIBLE <->
        ~ forall r l, NoDup l -> (forall y, y ∈ l <-> root_of f y r) ->
            zsum (value f <$> l) = 0%Z)).
Proof.
  intros Hwf. destruct (verify_ok f Hwf) as (f' & v & Hv & _ & Hpos).
  exists f', v. split; [done|].
  assert (NoDup_members : forall r, NoDup (members f r)).
  { intros r. apply NoDup_filter, NoDup_seq. }
  assert (v = POSSIBLE <->
          forall r l, NoDup l -> (forall y, y ∈ l <-> root_of f y r) ->
            wrap (zsum (value f <$> l)) = 0%Z) as Hint.
  { rewrite Hpos. split.
    - intros Hall r l Hnd Hl.
      destruct (group_listing_sums f r l Hwf Hnd Hl) as [-> _]. apply Hall.
    - intros Hall r.
      destruct (group_listing_sums f r (members f r) Hwf) as [<- _];
        [done|intros y; by apply (members_root_of f r y)|].
      apply (Hall r); [done|]. intros y. by apply (members_root_of f r y). }
  split; [done|].
  split; [rewrite <- Hint; destruct v; split; congruence|].
  intros Hb.
  assert (v = POSSIBLE <->
          forall r l, NoDup l -> (forall y, y ∈ l <-> root_of f y r) ->
            zsum (value f <$> l) = 0%Z) as Hideal.
  { rewrite Hpos. split.
    - intros Hall r l Hnd Hl.
      destruct (group_listing_sums f r l Hwf Hnd Hl) as [_ ->].
      rewrite <- group_sum_exact by done. apply Hall.
    - intros Hall r. rewrite group_sum_exact by done.
      destruct (group_listing_sums f r (members f r) Hwf) as [_ <-];
        [done|intros y; by apply (members_root_of f r y)|].
      apply (Hall r); [done|]. intros y. by apply (members_root_of f r y). }
  split; [done|]. rewrite <- Hideal. destruct v; split; congruence.
Qed.

(** The same verdict in terms of the partition alone. *)
Lemma members_same_group f x r y :
  wf f -> x < length f -> y < length f -> rep f x = Ok r ->
  rep f y = Ok r <-> same_group f x y = Ok true.
Proof.
  intros Hwf Hx Hy Hrx. apply rep_root_of in Hrx; [|done..].
  rewrite rep_root_of, same_group_true by done. split.
  - eauto.
  - intros (r' & Hx' & Hy'). by rewrite (root_of_det _ _ _ _ Hrx Hx').
Qed.

Lemma zero_sums_transfer f1 f2 :
  wf f1 -> wf f2 -> length f1 = length f2 ->
  (forall i, value f1 i = value f2 i) ->
  (forall a b, a < length f1 -> b < length f1 ->
     same_group f1 a b = same_group f2 a b) ->
  (forall r, wrap (zsum (value f1 <$> members f1 r)) = 0%Z) ->
  forall r, wrap (zsum (value f2 <$> members f2 r)) = 0%Z.
Proof.
  intros Hwf1 Hwf2 Hlen Hval Hsame H1 r.
  destruct (members f2 r) as [|x g] eqn:Hg; [done|].
  assert (x ∈ members f2 r) as Hx by (rewrite Hg; by left).
  apply list_elem_of_filter in Hx as [Hrx Hx%elem_of_seq].
  assert (x < length f1) as Hx1 by lia.
  destruct (Hwf1 _ Hx1) as [r1 Hr1]. apply rep_root_of in Hr1; [|done..].
  rewrite <- Hg, <- (H1 r1). f_equal. f_equal.
  assert (members f2 r = members f1 r1) as ->.
  { unfold members, members_in. rewrite Hlen.
    apply filter_ext_in. intros y Hy%elem_of_seq.
    rewrite (members_same_group f2 x r y) by (done || lia).
    rewrite (members_same_group f1 x r1 y) by (done || lia).
    rewrite Hsame by lia. done. }
  apply list_fmap_ext. intros _ y _. by rewrite Hval.
Qed.

Lemma verify_scan_partition f1 f2 order :
  wf f1 -> wf f2 -> length f1 = length f2 ->
  (forall i, value f1 i = value f2 i) ->
  (forall a b, a < length f1 -> b < length f1 ->
     same_group f1 a b = same_group f2 a b) ->
  order ≡ₚ seq 0 (length f1) ->
  exists v, snd (verify_scan order f1) = Ok v /\ snd (verify f2) = Ok v.
Proof.
  intros Hwf1 Hwf2 Hlen Hval Hsame Hperm.
  destruct (verify_scan_ok f1 order Hwf1) as (f1' & v1 & Hv1 & _ & Hiff1).
  { rewrite Hperm. apply Forall_seq. intros; lia. }
  destruct (verify_scan_ok f2 (seq 0 (length f2)) Hwf2)
    as (f2' & v2 & Hv2 & _ & Hiff2).
  { apply Forall_seq. intros; lia. }
  exists v1. unfold verify. rewrite Hv1, Hv2. simpl. split; [done|].
  f_equal. symmetry. apply verdict_cases. rewrite Hiff1, Hiff2.
  assert ((forall r, wrap (zsum (value f1 <$> members_in f1 order r)) = 0%Z)
          <-> forall r, wrap (zsum (value f1 <$> members f1 r)) = 0%Z) as ->.
  { unfold members.
    split; intros H r; rewrite <- (H r); f_equal; apply zsum_perm;
      apply fmap_Permutation, members_in_perm; done. }
  split.
  - apply zero_sums_transfer; done.
  - apply zero_sums_transfer; try done.
    + intros a b Ha Hb. symmetry. apply Hsame; lia.
Qed.

(** ** The union requests of [main] *)

Lemma unions_run_ops us f :
  unions us f = run_ops ((fun ab => OpUnion ab.1 ab.2) <$> us) f.
Proof.
  revert f. induction us as [|[a b] us IH]; intros f; [done|].
  simpl. unfold bind. destruct (nodeUnion a b f) as [f1 [[]| |]]; auto.
Qed.

Lemma unions_ok f us :
  wf f -> Forall (valid_pair (length f)) us ->
  exists f', unions us f = (f', Ok tt) /\
    wf f' /\ length f' = length f /\ coarsens f f' /\ same_money f f'.
Proof.
  intros Hwf Hus. rewrite unions_run_ops. apply run_ops_ok; [done|].
  apply Forall_fmap. eapply Forall_impl; [done|]. by intros [a b].
Qed.

Lemma unions_make_wf ms us :
  Forall (valid_pair (length ms)) us ->
  wf (fst (unions us (make ms))) /\
  length (fst (unions us (make ms))) = length ms.
Proof.
  intros Hus. rewrite <- make_length in Hus.
  destruct (unions_ok _ _ (make_wf ms) Hus) as (f' & -> & Hwf & Hlen & _).
  simpl. by rewrite Hlen, make_length.
Qed.

(** C8: the verdict depends on the final partition and the values only:
    two sequences of union requests on the same values that end in the same
    groups, and any order in which the entities are scanned, give the same
    verdict. *)
Theorem verdict_order_independent ms us1 us2 order :
  Forall (valid_pair (length ms)) us1 ->
  Forall (valid_pair (length ms)) us2 ->
  (forall a b, a < length ms -> b < length ms ->
     same_group (fst (unions us1 (make ms))) a b =
     same_group (fst (unions us2 (make ms))) a b) ->
  order ≡ₚ seq 0 (length ms) ->
  exists v,
    snd ((unions us1 ;;; verify_scan order) (make ms)) = Ok v /\
    main ms us1 = Ok v /\ main ms us2 = Ok v.
Proof.
  intros Hus1 Hus2 Hsame Hperm.
  rewrite <- make_length in Hus1, Hus2.
  destruct (unions_ok _ _ (make_wf ms) Hus1)
    as (f1 & Hrun1 & Hwf1 & Hlen1 & _ & Hm1).
  destruct (unions_ok _ _ (make_wf ms) Hus2)
    as (f2 & Hrun2 & Hwf2 & Hlen2 & _ & Hm2).
  rewrite Hrun1, Hrun2 in Hsame. simpl in Hsame.
  rewrite make_length in Hlen1, Hlen2.
  assert (forall i, value f1 i = value f2 i) as Hval.
  { intros i. by rewrite (same_money_value _ _ _ Hm1),
      (same_money_value _ _ _ Hm2). }
  destruct (verify_scan_partition f1 f2 order) as (v & Hv1 & Hv2);
    try done; try congruence.
  { intros a b Ha Hb. apply Hsame; lia. }
  destruct (verify_scan_partition f1 f2 (seq 0 (length f1)))
    as (v' & Hv1' & Hv2'); try done; try congruence.
  { intros a b Ha Hb. apply Hsame; lia. }
  exists v. unfold main, bind. rewrite Hrun1, Hrun2.
  split; [done|]. split; [|done].
  unfold verify. rewrite Hv1'. congruence.
Qed.


(** ** What a merge writes *)

Lemma merged_lookup f2 w l f' :
  merged f2 w l f' ->
  exists nw nl,
    f2 !! w = Some nw /\ f2 !! l = Some nl /\ w <> l /\
    (rank nl <= rank nw)%Z /\
    f' !! l = Some (set_parent w nl) /\
    f' !! w = Some (if (rank nw =? rank nl)%Z
                    then set_rank (wrap (rank nw + 1)) nw else nw) /\
    forall z, z <> w -> z <> l -> f' !! z = f2 !! z.
Proof.
  intros (nw & nl & Hw & Hl & Hne & _ & _ & Hle & ->).
  exists nw, nl. split_and!; try done.
  - destruct (_ =? _)%Z.
    + rewrite list_lookup_insert_ne by done.
      by rewrite list_lookup_insert_eq by eauto using lookup_lt_Some.
    + by rewrite list_lookup_insert_eq by eauto using lookup_lt_Some.
  - destruct (_ =? _)%Z.
    + by rewrite list_lookup_insert_eq
        by (rewrite length_insert; eauto using lookup_lt_Some).
    + by rewrite list_lookup_insert_ne.
  - intros z Hzw Hzl. destruct (_ =? _)%Z;
      by rewrite ?list_lookup_insert_ne by done.
Qed.

(** C3, as the code has it: [nodeUnion a b] first runs [find a] and
    [find b], which compress the two paths.  If the two representatives are
    equal nothing else is written.  Otherwise the representative of lower
    rank gets the other one as parent; on equal ranks the representative of
    [b] is put under that of [a], whose rank becomes one more (in [int]
    arithmetic, so exactly one more below [INT_MAX]); no other node is
    written by the merge. *)
Theorem nodeUnion_links_by_rank f a b :
  wf f -> a < length f -> b < length f ->
  exists f1 f2 f' ra rb,
    find a f = (f1, Ok ra) /\ find b f1 = (f2, Ok rb) /\
    nodeUnion a b f = (f', Ok tt) /\
    (ra = rb -> f' = f2) /\
    (ra <> rb ->
     exists na nb,
       f2 !! ra = Some na /\ f2 !! rb = Some nb /\
       (forall z, z <> ra -> z <> rb -> f' !! z = f2 !! z) /\
       ((rank na < rank nb)%Z ->
          f' !! ra = Some (set_parent rb na) /\ f' !! rb = Some nb) /\
       ((rank nb < rank na)%Z ->
          f' !! rb = Some (set_parent ra nb) /\ f' !! ra = Some na) /\
       (rank na = rank nb ->
          f' !! rb = Some (set_parent ra nb) /\
          f' !! ra = Some (set_rank (wrap (rank na + 1)) na) /\
          ((rank na < INT_MAX)%Z -> (INT_MIN <= rank na)%Z ->
             wrap (rank na + 1) = (rank na + 1)%Z))).
Proof.
  intros Hwf Ha Hb.
  destruct (nodeUnion_ok _ _ _ Hwf Ha Hb)
    as (f' & Hu & ra & rb & f1 & f2 & Hfa & Hfb & _ & _ & _ & _ & _ & _ & _ &
        _ & Hsame & Hdiff).
  exists f1, f2, f', ra, rb. split_and!; try done.
  intros Hne. destruct (Hdiff Hne) as (na & nb & Hna & Hnb & Hm).
  exists na, nb. split; [done|]. split; [done|].
  destruct (rank na <? rank nb)%Z eqn:Hlt.
  - apply Z.ltb_lt in Hlt.
    destruct (merged_lookup _ _ _ _ Hm)
      as (nw & nl & Hw & Hl & _ & _ & Hl' & Hw' & Hrest).
    assert (nw = nb) as -> by congruence.
    assert (nl = na) as -> by congruence.
    replace (rank nb =? rank na)%Z with false in Hw'
      by (symmetry; apply Z.eqb_neq; lia).
    split; [intros z ? ?; by apply Hrest|].
    split; [done|]. split; intros; lia.
  - apply Z.ltb_ge in Hlt.
    destruct (merged_lookup _ _ _ _ Hm)
      as (nw & nl & Hw & Hl & _ & _ & Hl' & Hw' & Hrest).
    assert (nw = na) as -> by congruence.
    assert (nl = nb) as -> by congruence.
    split; [intros z ? ?; by apply Hrest|].
    split; [intros; lia|]. split.
    + intros Hgt. split; [done|].
      rewrite Hw'. by replace (rank na =? rank nb)%Z with false
        by (symmetry; apply Z.eqb_neq; lia).
    + intros Heq. split; [done|]. split.
      * rewrite Hw'. by replace (rank na =? rank nb)%Z with true
          by (symmetry; apply Z.eqb_eq; lia).
      * intros ? ?. apply wrap_small. unfold in_int. lia.
Qed.

Lemma nodeUnion_link_roots a b :
  nodeUnion a b =
  (rootA <- find a ;; rootB <- find b ;; link_roots rootA rootB).
Proof. reflexivity. Qed.

(** C4, as the code has it: no call checks an index and there is no
    [IndexOutOfRange]; what an index outside [0, n) does is undefined in the
    source, and nothing is stated about it.  With both indices inside
    [0, n) [nodeUnion] and [query] return.  [nodeUnion a b] with [a] inside
    runs [find a] first, whatever [b] is: the path of [a] is compressed in
    the heap on which the pointer of [b] is first used, so no check of [b]
    comes before that write. *)
Theorem second_argument_unchecked f a b :
  wf f -> a < length f ->
  exists f1 ra,
    find a f = (f1, Ok ra) /\ root_of f a ra /\
    (forall y ny, f !! y = Some ny -> on_path f a y ->
       exists ny1, f1 !! y = Some ny1 /\ parent ny1 = ra) /\
    nodeUnion a b f = (rootB <- find b ;; link_roots ra rootB) f1 /\
    (b < length f ->
       (exists f', nodeUnion a b f = (f', Ok tt)) /\
       (exists f' t, query a b f = (f', Ok t))).
Proof.
  intros Hwf Ha.
  destruct (find_ok _ _ Hwf Ha) as (f1 & ra & Hfa & Hra & [_ Hpost] & _).
  exists f1, ra. split_and!; try done.
  - intros y ny Hy Hon.
    destruct (Hpost _ _ Hy) as (ny1 & Hy1 & _ & _ & Hpar & _). eauto.
  - rewrite nodeUnion_link_roots. unfold bind at 1. by rewrite Hfa.
  - intros Hb. split.
    + destruct (nodeUnion_ok _ _ _ Hwf Ha Hb) as (f' & Hu & _). eauto.
    + destruct (query_ok _ _ _ Hwf Ha Hb) as (f' & ? & ? & Hq & _). eauto.
Qed.

(** C10, as the code has it: no call writes a value.  [find] writes only
    parent links of nodes on its path.  [nodeUnion] writes a rank only at
    the winning representative on a tie, and a parent link only on the two
    paths its [find] calls compress and at the losing representative. *)
Theorem find_union_frame f a b :
  wf f -> a < length f -> b < length f ->
  exists f1 f2 f' ra rb w l,
    find a f = (f1, Ok ra) /\ find b f1 = (f2, Ok rb) /\
    nodeUnion a b f = (f', Ok tt) /\
    ((w = ra /\ l = rb) \/ (w = rb /\ l = ra)) /\
    (forall y ny, f !! y = Some ny ->
       exists ny1, f1 !! y = Some ny1 /\
         money ny1 = money ny /\ rank ny1 = rank ny /\
         (parent ny1 <> parent ny -> on_path f a y)) /\
    (forall y ny, f !! y = Some ny ->
       exists ny', f' !! y = Some ny' /\
         money ny' = money ny /\
         (rank ny' <> rank ny ->
            ra <> rb /\ y = w /\ rank ny' = wrap (rank ny + 1) /\
            exists nl, f !! l = Some nl /\ rank nl = rank ny) /\
         (parent ny' <> parent ny ->
            on_path f a y \/ on_path f1 b y \/ (ra <> rb /\ y = l))).
Proof.
  intros Hwf Ha Hb.
  destruct (nodeUnion_ok _ _ _ Hwf Ha Hb)
    as (f' & Hu & ra & rb & f1 & f2 & Hfa & Hfb & Hra & Hrb & [Hlen1 Hp1] &
        [Hlen2 Hp2] & Hc1 & _ & _ & _ & Hsame & Hdiff).
  assert (forall y ny, f !! y = Some ny ->
            exists ny2, f2 !! y = Some ny2 /\
              money ny2 = money ny /\ rank ny2 = rank ny /\
              (parent ny2 <> parent ny -> on_path f a y \/ on_path f1 b y))
    as Hfinds.
  { intros y ny Hy.
    destruct (Hp1 _ _ Hy) as (ny1 & Hy1 & Hr1 & Hm1 & _ & Hoff1).
    destruct (Hp2 _ _ Hy1) as (ny2 & Hy2 & Hr2 & Hm2 & _ & Hoff2).
    exists ny2. split_and!; try congruence.
    intros Hpar.
    destruct (proj2 (compressed_root_of f f1 b rb Hwf Hc1) Hrb) as [kb Hkb].
    destruct (on_path_dec f1 kb b rb y Hkb) as [?|Hnb]; [by auto|].
    destruct Hra as [ka Hka].
    destruct (on_path_dec f _ a ra y Hka) as [?|Hna]; [by auto|].
    rewrite (Hoff2 Hnb), (Hoff1 Hna) in Hpar. done. }
  destruct (decide (ra = rb)) as [Heq|Hne].
  - rewrite (Hsame Heq) in Hu. exists f1, f2, f2, ra, rb, ra, rb.
    split_and!; try done; [by left| |].
    + intros y ny Hy.
      destruct (Hp1 _ _ Hy) as (ny1 & Hy1 & Hr1 & Hm1 & _ & Hoff1).
      exists ny1. split_and!; try done. intros Hpar.
      destruct Hra as [ka Hka].
      destruct (on_path_dec f _ a ra y Hka) as [?|Hna]; [done|].
      by rewrite (Hoff1 Hna) in Hpar.
    + intros y ny Hy. destruct (Hfinds _ _ Hy) as (ny2 & ? & ? & ? & Hpar).
      exists ny2. split_and!; try done. intros Hpar'.
      destruct (Hpar Hpar') as [?|?]; auto.
  - destruct (Hdiff Hne) as (na & nb & Hna & Hnb & Hm).
    assert (exists w l, merged f2 w l f' /\
              ((w = ra /\ l = rb) \/ (w = rb /\ l = ra))) as (w & l & Hm' & Hwl).
    { destruct (_ <? _)%Z; eauto 10. }
    destruct (merged_lookup _ _ _ _ Hm')
      as (nw & nl & Hw & Hl & Hwl' & _ & Hl' & Hw' & Hrest).
    exists f1, f2, f', ra, rb, w, l. split_and!; try done.
    + intros y ny Hy.
      destruct (Hp1 _ _ Hy) as (ny1 & Hy1 & Hr1 & Hm1 & _ & Hoff1).
      exists ny1. split_and!; try done. intros Hpar.
      destruct Hra as [ka Hka].
      destruct (on_path_dec f _ a ra y Hka) as [?|Hnoa]; [done|].
      by rewrite (Hoff1 Hnoa) in Hpar.
    + intros y ny Hy. destruct (Hfinds _ _ Hy) as (ny2 & Hy2 & Hm2 & Hr2 & Hpar).
      destruct (decide (y = l)) as [->|Hyl];
        [|destruct (decide (y = w)) as [->|Hyw]].
      * exists (set_parent w nl). assert (nl = ny2) as -> by congruence.
        split_and!; try done. intros _. auto.
      * eexists. split; [exact Hw'|]. assert (nw = ny2) as -> by congruence.
        destruct (rank ny2 =? rank nl)%Z eqn:Htie; simpl.
        -- apply Z.eqb_eq in Htie. split; [done|]. split.
           ++ intros _. split_and!; try done; [by rewrite Hr2|].
              assert (l < length f) as Hll
                by (rewrite <- Hlen1, <- Hlen2; eauto using lookup_lt_Some).
              destruct (lookup_lt_is_Some_2 _ _ Hll) as [nl0 Hnl0].
              destruct (Hfinds _ _ Hnl0) as (nl2 & Hl2 & _ & Hrl & _).
              exists nl0. split; [done|]. congruence.
           ++ intros Hpar'. destruct (Hpar Hpar'); auto.
        -- split; [done|]. split; [done|].
           intros Hpar'. destruct (Hpar Hpar'); auto.
      * exists ny2. rewrite Hrest by done. split_and!; try done.
        intros Hpar'. destruct (Hpar Hpar'); auto.
Qed.

(** ** Ranks stay small *)

Lemma nonroots_size f (S : gset nat) :
  wf f -> 0 < length f ->
  (forall x, x ∈ S -> exists nx, f !! x = Some nx /\ parent nx <> x) ->
  size S < length f.
Proof.
  intros Hwf Hn HS. destruct (Hwf 0 Hn) as [r Hr].
  destruct (root_of_self_node _ _ _ Hr) as (nr & Hnr & Hpr).
  assert (S ⊆ set_seq 0 (length f) ∖ {[r]}) as Hsub.
  { intros x Hx. destruct (HS _ Hx) as (nx & Hnx & Hpx).
    apply elem_of_difference. split.
    - apply elem_of_set_seq. apply lookup_lt_Some in Hnx. lia.
    - intros ->%elem_of_singleton. congruence. }
  apply subseteq_size in Hsub.
  rewrite size_difference, size_set_seq, size_singleton in Hsub.
  - lia.
  - intros x ->%elem_of_singleton. apply elem_of_set_seq.
    apply lookup_lt_Some in Hnr. lia.
Qed.

Lemma ranks_inv_compressed f f' :
  compressed f f' -> ranks_inv f -> ranks_inv f'.
Proof.
  intros [Hlen Hc] (S & HS & Hrk). exists S. split.
  - intros x Hx. destruct (HS _ Hx) as (nx & Hnx & Hpx).
    destruct (Hc _ _ Hnx) as (nx' & Hnx' & _ & _ & [Hpar|[k Hroot]]).
    + exists nx'. split; [done|congruence].
    + exists nx'. split; [done|]. intros Heq. rewrite Heq in Hroot.
      apply root_in_root in Hroot. inversion Hroot; subst. congruence.
  - intros y ny' Hy'.
    assert (y < length f) as Hy by (rewrite <- Hlen; eauto using lookup_lt_Some).
    destruct (lookup_lt_is_Some_2 _ _ Hy) as [ny Hny].
    destruct (Hc _ _ Hny) as (ny'' & Hy'' & Hr & _).
    assert (ny'' = ny') as -> by congruence. rewrite Hr. eauto.
Qed.

Lemma ranks_inv_merged f2 w l f' :
  wf f2 -> (Z.of_nat (length f2) <= INT_MAX)%Z ->
  merged f2 w l f' -> ranks_inv f2 -> ranks_inv f'.
Proof.
  intros Hwf Hmax Hm (S & HS & Hrk).
  destruct (merged_lookup _ _ _ _ Hm)
    as (nw & nl & Hw & Hl & Hwl & Hle & Hl' & Hw' & Hrest).
  destruct Hm as (nw0 & nl0 & Hw0 & Hl0 & _ & Hpw & Hpl & _ & _).
  assert (nw0 = nw) as -> by congruence.
  assert (nl0 = nl) as -> by congruence.
  assert (l ∉ S) as HlS.
  { intros (nx & ? & ?)%HS. congruence. }
  assert (w ∉ S) as HwS.
  { intros (nx & ? & ?)%HS. congruence. }
  assert (size S < length f2) as Hsize.
  { apply nonroots_size; [done| |done]. apply lookup_lt_Some in Hw. lia. }
  exists (S ∪ {[l]}).
  assert (size (S ∪ {[l]}) = size S + 1) as Hsz.
  { rewrite size_union by set_solver. by rewrite size_singleton. }
  split.
  - intros x [Hx| ->%elem_of_singleton]%elem_of_union.
    + rewrite Hrest by congruence. auto.
    + exists (set_parent w nl). done.
  - intros y ny' Hy'. rewrite Hsz.
    destruct (decide (y = l)) as [->|Hyl];
      [|destruct (decide (y = w)) as [->|Hyw]].
    + assert (ny' = set_parent w nl) as -> by congruence. simpl.
      pose proof (Hrk _ _ Hl). lia.
    + pose proof (Hrk _ _ Hw) as Hrw. pose proof (Hrk _ _ Hl) as Hrl.
      rewrite Hw' in Hy'. injection Hy' as <-.
      destruct (Z.eqb_spec (rank nw) (rank nl)) as [Heq|Hneq]; simpl; [|lia].
      rewrite wrap_small; [lia|].
      unfold in_int, INT_MIN, INT_MAX in *. lia.
    + rewrite Hrest in Hy' by done. pose proof (Hrk _ _ Hy'). lia.
Qed.

Lemma ranks_inv_make ms : ranks_inv (make ms).
Proof.
  exists ∅. split; [set_solver|]. intros y ny Hy.
  rewrite make_lookup in Hy. destruct (ms !! y); simplify_eq/=. lia.
Qed.

Lemma run_op_ranks f o :
  wf f -> (Z.of_nat (length f) <= INT_MAX)%Z ->
  valid_op (length f) o -> ranks_inv f -> ranks_inv (fst (run_op o f)).
Proof.
  intros Hwf Hmax Hv Hinv. destruct o as [x|a b|a b]; simpl in Hv.
  - destruct (find_ok _ _ Hwf Hv) as (f' & r & Hf & _ & _ & Hc & _).
    simpl. unfold bind, ret. rewrite Hf. simpl.
    by eapply ranks_inv_compressed.
  - destruct Hv as [Ha Hb].
    destruct (nodeUnion_ok _ _ _ Hwf Ha Hb)
      as (f' & Hu & ra & rb & f1 & f2 & _ & _ & _ & _ & _ & _ & _ & Hc & _ &
          Hwf2 & Hsame & Hdiff).
    simpl. rewrite Hu. simpl.
    pose proof (ranks_inv_compressed _ _ Hc Hinv) as Hinv2.
    destruct (decide (ra = rb)) as [Heq|Hne]; [by rewrite (Hsame Heq)|].
    destruct (Hdiff Hne) as (na & nb & _ & _ & Hm).
    assert (Z.of_nat (length f2) <= INT_MAX)%Z
      by (destruct Hc as [-> _]; done).
    destruct (_ <? _)%Z; by eapply ranks_inv_merged.
  - destruct Hv as [Ha Hb].
    destruct (query_ok _ _ _ Hwf Ha Hb) as (f' & ra & rb & Hq & _ & _ & Hc & _).
    simpl. unfold bind, ret. rewrite Hq. simpl.
    by eapply ranks_inv_compressed.
Qed.

(** In every state reached from the initial forest of at most [INT_MAX]
    entities, every rank lies in [0, n): [rank++] never wraps. *)
Lemma reachable_ranks ms ops :
  (Z.of_nat (length ms) <= INT_MAX)%Z ->
  Forall (valid_op (length ms)) ops ->
  forall y ny, fst (run_ops ops (make ms)) !! y = Some ny ->
    (0 <= rank ny < Z.of_nat (length ms))%Z.
Proof.
  intros Hmax Hops.
  assert (forall f, wf f -> length f = length ms -> ranks_inv f ->
            wf (fst (run_ops ops f)) /\
            length (fst (run_ops ops f)) = length ms /\
            ranks_inv (fst (run_ops ops f))) as Hgen.
  { induction Hops as [|o ops Ho Hops IH]; intros f Hwf Hlen Hinv; [done|].
    rewrite <- Hlen in Ho, Hmax.
    destruct (run_op_ok _ _ Hwf Ho) as (f1 & Hrun & Hwf1 & Hlen1 & _).
    pose proof (run_op_ranks _ _ Hwf Hmax Ho Hinv) as Hinv1.
    rewrite Hrun in Hinv1. simpl in Hinv1.
    simpl. unfold bind. rewrite Hrun. apply IH; [done|congruence|done]. }
  destruct (Hgen (make ms) (make_wf ms) (make_length ms) (ranks_inv_make ms))
    as (Hwf & Hlen & S & HS & Hrk).
  intros y ny Hy. pose proof (Hrk _ _ Hy) as Hr.
  assert (size S < length ms).
  { rewrite <- Hlen. apply nonroots_size; [done| |done].
    apply lookup_lt_Some in Hy. lia. }
  lia.
Qed.

(** ** Concrete runs *)

Example chain_forest_eq :
  chain_forest =
    [mkNode 0 2 3; mkNode 0 0 (-3); mkNode 0 1 5; mkNode 2 0 (-5);
     mkNode 4 0 0].
Proof. reflexivity. Qed.

Lemma chain_forest_wf : wf chain_forest.
Proof. apply (unions_make_wf chain_values chain_unions). compute_done. Qed.

(** The scenarios of the specification. *)
Example scenario_1 : main [3; -3; 5; -5]%Z [(0, 1); (2, 3)] = Ok POSSIBLE.
Proof. vm_compute. reflexivity. Qed.

Example scenario_2 : main [3; -3; 5; -4]%Z [(0, 1); (2, 3)] = Ok IMPOSSIBLE.
Proof. vm_compute. reflexivity. Qed.

Example scenario_3 : main [0; 0; 0]%Z [] = Ok POSSIBLE.
Proof. vm_compute. reflexivity. Qed.

Example scenario_4 : main [1; -1]%Z [(0, 1); (0, 1)] = Ok POSSIBLE.
Proof. vm_compute. reflexivity. Qed.

Example scenario_5 :
  main [10; -10; 0; 7; -7]%Z [(0, 1); (3, 4)] = Ok POSSIBLE.
Proof. vm_compute. reflexivity. Qed.

Example scenario_6 : main [5]%Z [] = Ok IMPOSSIBLE.
Proof. vm_compute. reflexivity. Qed.

Example scenario_empty : main [] [] = Ok POSSIBLE.
Proof. vm_compute. reflexivity. Qed.

Example scenario_singleton_zero : main [0%Z] [] = Ok POSSIBLE.
Proof. vm_compute. reflexivity. Qed.

(** C3, counterexample: entities 3 and 0 have the same representative, and
    [nodeUnion 3 0] still writes the heap (the parent of 3). *)
Lemma union_of_same_group_writes :
  snd (find 3 chain_forest) = snd (find 0 chain_forest) /\
  nodeUnion 3 0 chain_forest <> (chain_forest, Ok tt).
Proof. split; [reflexivity|]. intros H. vm_compute in H. discriminate H. Qed.

(** C4, counterexample: index 7 is outside the five entities of the
    forest; [nodeUnion 3 b] has rewritten the parent of entity 3 in the heap
    on which [b] is first used, for [b = 7] as for every [b]. *)
Lemma compression_precedes_second_index :
  length chain_forest <= 7 /\
  chain_forest !! 3 = Some (mkNode 2 0 (-5)) /\
  fst (find 3 chain_forest) !! 3 = Some (mkNode 0 0 (-5)) /\
  forall b,
    nodeUnion 3 b chain_forest =
    (rootB <- find b ;; link_roots 0 rootB) (fst (find 3 chain_forest)).
Proof.
  split; [vm_compute; lia|]. split; [reflexivity|]. split; [reflexivity|].
  intros b. reflexivity.
Qed.

(** C1, counterexample: three values of the [int] range in one group
    (every entity reaches node 0); the verdict is [POSSIBLE] and the sum of
    the group is [2^32], not zero. *)
Lemma wrapped_group_sum_possible :
  wf wide_forest /\ Forall in_int wide_values /\
  snd (verify wide_forest) = Ok POSSIBLE /\
  NoDup [0; 1; 2] /\
  (forall y, y ∈ [0; 1; 2] <-> root_of wide_forest y 0) /\
  zsum (value wide_forest <$> [0; 1; 2]) = (2 ^ 32)%Z.
Proof.
  assert (wf wide_forest) as Hwf.
  { apply (unions_make_wf wide_values [(0, 1); (1, 2)]). compute_done. }
  split; [done|].
  split; [repeat constructor; vm_compute; discriminate|].
  split; [vm_compute; reflexivity|].
  split; [compute_done|].
  split; [|vm_compute; reflexivity].
  intros y. split.
  - intros Hy. apply rep_root_of; [done| |].
    + apply list_elem_of_In in Hy. simpl in Hy. vm_compute. lia.
    + apply elem_of_cons in Hy as [->|Hy]; [reflexivity|].
      apply elem_of_cons in Hy as [->|Hy]; [reflexivity|].
      apply list_elem_of_singleton in Hy as ->. reflexivity.
  - intros Hr. destruct (root_of_lt _ _ _ Hr) as [Hy _].
    change (length wide_forest) with 3 in Hy.
    destruct y as [|[|[|y]]]; [compute_done..|lia].
Qed.


(** C10, counterexample: [nodeUnion 3 4] merges two groups (representatives
    0 and 4), and the parent of entity 3, which is neither of them, is
    written. *)
Lemma merging_union_writes_path :
  rep chain_forest 3 = Ok 0 /\ rep chain_forest 4 = Ok 4 /\
  parent <$> chain_forest !! 3 = Some 2 /\
  parent <$> fst (nodeUnion 3 4 chain_forest) !! 3 = Some 0.
Proof. repeat split. Qed.

(** ** The theorems at concrete inputs *)

Lemma verify_possible_iff_group_sums_zero_witness :
  wf chain_forest /\ (abs_total chain_forest <= INT_MAX)%Z /\
  exists f' v,
    verify chain_forest = (f', Ok v) /\
    (v = POSSIBLE <->
     forall r l, NoDup l -> (forall y, y ∈ l <-> root_of chain_forest y r) ->
       wrap (zsum (value chain_forest <$> l)) = 0%Z) /\
    (v = POSSIBLE <->
     forall r l, NoDup l -> (forall y, y ∈ l <-> root_of chain_forest y r) ->
       zsum (value chain_forest <$> l) = 0%Z).
Proof.
  assert (abs_total chain_forest <= INT_MAX)%Z as Hb
    by (vm_compute; discriminate).
  split; [exact chain_forest_wf|]. split; [exact Hb|].
  destruct (verify_possible_iff_group_sums_zero chain_forest chain_forest_wf)
    as (f' & v & Hv & Hpos & _ & Hideal).
  exists f', v. split; [exact Hv|]. split; [exact Hpos|].
  exact (proj1 (Hideal Hb)).
Defined.

Lemma find_returns_root_and_compresses_witness :
  wf chain_forest /\ 3 < length chain_forest /\
  exists f' r,
    find 3 chain_forest = (f', Ok r) /\ root_of chain_forest 3 r /\
    forall y r', root_of f' y r' <-> root_of chain_forest y r'.
Proof.
  assert (3 < length chain_forest) as Hlt by (vm_compute; lia).
  split; [exact chain_forest_wf|]. split; [exact Hlt|].
  destruct (find_returns_root_and_compresses chain_forest 3
              chain_forest_wf Hlt) as (f' & r & H1 & H2 & _ & _ & H3 & _).
  exists f', r. auto.
Defined.

Lemma nodeUnion_links_by_rank_witness :
  wf chain_forest /\ 3 < length chain_forest /\ 4 < length chain_forest /\
  exists f1 f2 f' ra rb,
    find 3 chain_forest = (f1, Ok ra) /\ find 4 f1 = (f2, Ok rb) /\
    nodeUnion 3 4 chain_forest = (f', Ok tt) /\ (ra = rb -> f' = f2).
Proof.
  assert (3 < length chain_forest) as H3 by (vm_compute; lia).
  assert (4 < length chain_forest) as H4 by (vm_compute; lia).
  split; [exact chain_forest_wf|]. split; [exact H3|]. split; [exact H4|].
  destruct (nodeUnion_links_by_rank chain_forest 3 4 chain_forest_wf H3 H4)
    as (f1 & f2 & f' & ra & rb & Ha & Hb & Hu & Hsame & _).
  exists f1, f2, f', ra, rb. auto.
Defined.

Lemma second_argument_unchecked_witness :
  wf chain_forest /\ 3 < length chain_forest /\ 4 < length chain_forest /\
  exists f1 ra,
    find 3 chain_forest = (f1, Ok ra) /\
    nodeUnion 3 4 chain_forest = (rootB <- find 4 ;; link_roots ra rootB) f1 /\
    exists f', nodeUnion 3 4 chain_forest = (f', Ok tt).
Proof.
  assert (3 < length chain_forest) as H3 by (vm_compute; lia).
  assert (4 < length chain_forest) as H4 by (vm_compute; lia).
  split; [exact chain_forest_wf|]. split; [exact H3|]. split; [exact H4|].
  destruct (second_argument_unchecked chain_forest 3 4 chain_forest_wf H3)
    as (f1 & ra & Hf & _ & _ & Hu & Hok).
  exists f1, ra. split; [exact Hf|]. split; [exact Hu|].
  exact (proj1 (Hok H4)).
Defined.


Lemma union_idempotent_witness :
  wf chain_forest /\ 3 < length chain_forest /\ 4 < length chain_forest /\
  exists f1 f2 r,
    nodeUnion 3 4 chain_forest = (f1, Ok tt) /\
    nodeUnion 3 4 f1 = (f2, Ok tt) /\
    rep f1 3 = Ok r /\ rep f1 4 = Ok r /\
    rep f2 3 = rep f1 3 /\ rep f2 4 = rep f1 4.
Proof.
  assert (3 < length chain_forest) as H3 by (vm_compute; lia).
  assert (4 < length chain_forest) as H4 by (vm_compute; lia).
  split; [exact chain_forest_wf|]. split; [exact H3|]. split; [exact H4|].
  exact (union_idempotent chain_forest 3 4 chain_forest_wf H3 H4).
Defined.

Lemma groups_only_coarsen_witness :
  wf chain_forest /\ same_group chain_forest 1 3 = Ok true /\
  exists f',
    run_ops [OpFind 3; OpUnion 0 4; OpQuery 1 2] chain_forest = (f', Ok tt) /\
    same_group f' 1 3 = Ok true.
Proof.
  split; [exact chain_forest_wf|]. split; [reflexivity|].
  apply (groups_only_coarsen chain_forest 1 3); try exact chain_forest_wf.
  - vm_compute; lia.
  - vm_compute; lia.
  - compute_done.
  - reflexivity.
Defined.

Lemma verdict_order_independent_witness :
  [3; 1; 0; 2] ≡ₚ seq 0 4 /\
  exists v,
    snd ((unions [(0, 1); (2, 3)] ;;; verify_scan [3; 1; 0; 2])
           (make [3; -3; 5; -5]%Z)) = Ok v /\
    main [3; -3; 5; -5]%Z [(0, 1); (2, 3)] = Ok v /\
    main [3; -3; 5; -5]%Z [(3, 2); (1, 0)] = Ok v.
Proof.
  assert ([3; 1; 0; 2] ≡ₚ seq 0 4) as Hperm by compute_done.
  split; [exact Hperm|].
  apply (verdict_order_independent [3; -3; 5; -5]%Z
           [(0, 1); (2, 3)] [(3, 2); (1, 0)] [3; 1; 0; 2]).
  - compute_done.
  - compute_done.
  - intros a b Ha Hb. simpl in Ha, Hb.
    destruct a as [|[|[|[|a]]]]; try lia;
      destruct b as [|[|[|[|b]]]]; try lia; reflexivity.
  - exact Hperm.
Defined.

Lemma forest_acyclic_invariant_witness :
  Forall (valid_op (length chain_values))
    [OpUnion 0 1; OpFind 1; OpUnion 2 3; OpQuery 1 3; OpUnion 1 3] /\
  exists f,
    run_ops [OpUnion 0 1; OpFind 1; OpUnion 2 3; OpQuery 1 3; OpUnion 1 3]
      (make chain_values) = (f, Ok tt) /\
    forall x k, 0 < k -> follow f k x = Some x -> follow f 1 x = Some x.
Proof.
  assert (Forall (valid_op (length chain_values))
            [OpUnion 0 1; OpFind 1; OpUnion 2 3; OpQuery 1 3; OpUnion 1 3])
    as Hops by compute_done.
  split; [exact Hops|].
  destruct (forest_acyclic_invariant chain_values _ Hops)
    as (f & Hrun & _ & _ & Hcyc).
  exists f. auto.
Defined.

Lemma find_union_frame_witness :
  wf chain_forest /\ 3 < length chain_forest /\ 4 < length chain_forest /\
  exists f',
    nodeUnion 3 4 chain_forest = (f', Ok tt) /\
    forall y ny, chain_forest !! y = Some ny ->
      exists ny', f' !! y = Some ny' /\ money ny' = money ny.
Proof.
  assert (3 < length chain_forest) as H3 by (vm_compute; lia).
  assert (4 < length chain_forest) as H4 by (vm_compute; lia).
  split; [exact chain_forest_wf|]. split; [exact H3|]. split; [exact H4|].
  destruct (find_union_frame chain_forest 3 4 chain_forest_wf H3 H4)
    as (f1 & f2 & f' & ra & rb & w & l & _ & _ & Hu & _ & _ & Hframe).
  exists f'. split; [exact Hu|]. intros y ny Hy.
  destruct (Hframe y ny Hy) as (ny' & Hy' & Hm & _). eauto.
Defined.

(** ** query as an equivalence *)

Lemma find_out_of_range f x : length f <= x -> find x f = (f, Fault).
Proof.
  intros Hx. unfold find. simpl. unfold bind, load.
  by rewrite (lookup_ge_None_2 f x Hx).
Qed.

Lemma same_group_valid f a b :
  wf f -> same_group f a b = Ok true -> a < length f /\ b < length f.
Proof.
  intros Hwf Hq. unfold same_group, query, bind in Hq.
  destruct (decide (a < length f)) as [Ha|Ha].
  - split; [done|].
    destruct (find_ok _ _ Hwf Ha) as (f1 & ra & Hfa & _ & _ & [Hlen _] & _).
    rewrite Hfa in Hq.
    destruct (decide (b < length f)) as [Hb|Hb]; [done|].
    rewrite find_out_of_range in Hq by lia. done.
  - rewrite find_out_of_range in Hq by lia. done.
Qed.

Lemma same_group_refl f a : wf f -> a < length f -> same_group f a a = Ok true.
Proof. intros Hwf Ha. apply same_group_true; [done..|]. by apply Hwf in Ha as [r Hr]; eauto. Qed.

Lemma same_group_sym f a b :
  wf f -> a < length f -> b < length f ->
  same_group f a b = same_group f b a.
Proof.
  intros Hwf Ha Hb.
  destruct (query_ok _ _ _ Hwf Ha Hb) as (? & ra & rb & Hq & Hra & Hrb & _).
  destruct (query_ok _ _ _ Hwf Hb Ha) as (? & rb' & ra' & Hq' & Hrb' & Hra' & _).
  unfold same_group. rewrite Hq, Hq'. simpl.
  rewrite (root_of_det _ _ _ _ Hra' Hra), (root_of_det _ _ _ _ Hrb' Hrb).
  f_equal. apply bool_decide_ext. split; congruence.
Qed.

Lemma same_group_trans f a b c :
  wf f -> same_group f a b = Ok true -> same_group f b c = Ok true ->
  same_group f a c = Ok true.
Proof.
  intros Hwf Hab Hbc.
  destruct (same_group_valid _ _ _ Hwf Hab) as [Ha Hb].
  destruct (same_group_valid _ _ _ Hwf Hbc) as [_ Hc].
  apply same_group_true in Hab as (r & Hra & Hrb); [|done..].
  apply same_group_true in Hbc as (r' & Hrb' & Hrc); [|done..].
  apply same_group_true; [done..|]. exists r. split; [done|].
  by rewrite (root_of_det _ _ _ _ Hrb Hrb').
Qed.

Lemma same_group_true_sym f a b :
  wf f -> same_group f a b = Ok true -> same_group f b a = Ok true.
Proof.
  intros Hwf Hab. destruct (same_group_valid _ _ _ Hwf Hab) as [Ha Hb].
  by rewrite same_group_sym.
Qed.

(** Two answers of [query] on forests are equal as soon as they are [true]
    together. *)
Lemma same_group_eq f1 f2 a b c d :
  wf f1 -> wf f2 ->
  a < length f1 -> b < length f1 -> c < length f2 -> d < length f2 ->
  (same_group f1 a b = Ok true <-> same_group f2 c d = Ok true) ->
  same_group f1 a b = same_group f2 c d.
Proof.
  intros Hwf1 Hwf2 Ha Hb Hc Hd Hiff.
  destruct (same_group_ok f1 a b) as [t1 H1]; [done..|].
  destruct (same_group_ok f2 c d) as [t2 H2]; [done..|].
  rewrite H1, H2 in *. f_equal.
  destruct t1, t2; try done.
  - by destruct Hiff as [Hiff _]; specialize (Hiff eq_refl).
  - by destruct Hiff as [_ Hiff]; specialize (Hiff eq_refl).
Qed.

(** X1: on a forest, [query] is an equivalence on the entities: every
    entity is in its own group, the answer does not depend on the order of
    the two arguments, and it is transitive. *)
Theorem query_equivalence f :
  wf f ->
  (forall a, a < length f -> snd (query a a f) = Ok true) /\
  (forall a b, a < length f -> b < length f ->
     snd (query a b f) = snd (query b a f)) /\
  (forall a b c,
     snd (query a b f) = Ok true -> snd (query b c f) = Ok true ->
     snd (query a c f) = Ok true).
Proof.
  intros Hwf. split_and!.
  - intros a Ha. by apply same_group_refl.
  - intros a b Ha Hb. by apply same_group_sym.
  - intros a b c. by apply same_group_trans.
Qed.

(** X2: [query] answers whether the two representatives are equal, and
    reads the forest up to path compression: lengths, ranks and values are
    as before, every entity keeps its representative and every later
    [query] its answer. *)
Theorem query_reads_only f a b :
  wf f -> a < length f -> b < length f ->
  exists f' ra rb,
    query a b f = (f', Ok (bool_decide (ra = rb))) /\
    rep f a = Ok ra /\ rep f b = Ok rb /\
    length f' = length f /\
    (forall y ny, f !! y = Some ny ->
       exists ny', f' !! y = Some ny' /\
         rank ny' = rank ny /\ money ny' = money ny) /\
    (forall y, y < length f -> rep f' y = rep f y) /\
    (forall x y, x < length f -> y < length f ->
       same_group f' x y = same_group f x y).
Proof.
  intros Hwf Ha Hb.
  destruct (query_ok _ _ _ Hwf Ha Hb) as (f' & ra & rb & Hq & Hra & Hrb & Hc & _).
  exists f', ra, rb. split_and!; try done.
  - by apply rep_root_of.
  - by apply rep_root_of.
  - by destruct Hc.
  - intros y ny Hy. destruct Hc as [_ Hc].
    destruct (Hc _ _ Hy) as (ny' & ? & ? & ? & _). eauto.
  - intros y Hy. by apply rep_compressed.
  - intros x y Hx Hy. by apply same_group_compressed.
Qed.

(** ** The initial forest *)

Lemma make_root_of ms i : i < length ms -> root_of (make ms) i i.
Proof.
  intros Hi. destruct (lookup_lt_is_Some_2 ms i Hi) as [m Hm].
  exists 0. econstructor; [by rewrite make_lookup, Hm|done].
Qed.

Lemma make_value ms i : value (make ms) i = input_value ms i.
Proof.
  unfold value, input_value. rewrite make_lookup. by destruct (ms !! i).
Qed.

(** X3: the forest built by the first loop of [main] has one group per
    entity: [find i] returns [i] and writes nothing, [query a b] holds only
    for [a = b], all ranks are 0 and the value of entity [i] is the [i]-th
    number read. *)
Theorem make_singletons ms :
  length (make ms) = length ms /\
  (forall i, i < length ms -> find i (make ms) = (make ms, Ok i)) /\
  (forall a b, a < length ms -> b < length ms ->
     query a b (make ms) = (make ms, Ok (bool_decide (a = b)))) /\
  (forall i n, make ms !! i = Some n ->
     parent n = i /\ rank n = 0%Z /\ ms !! i = Some (money n)).
Proof.
  assert (forall i, i < length ms -> find i (make ms) = (make ms, Ok i)) as Hf.
  { intros i Hi. destruct (lookup_lt_is_Some_2 ms i Hi) as [m Hm].
    unfold find. simpl. unfold bind, load.
    rewrite make_lookup, Hm. simpl. rewrite decide_True by done.
    by rewrite make_lookup, Hm. }
  split; [apply make_length|]. split; [done|]. split.
  - intros a b Ha Hb. unfold query, bind, ret. by rewrite !Hf.
  - intros i n Hn. rewrite make_lookup in Hn.
    destruct (ms !! i); simplify_eq/=. done.
Qed.

(** ** nodeUnion on the partition *)

Lemma union_post_same_group f a b f' x y :
  wf f -> a < length f -> b < length f ->
  union_post f a b f' -> x < length f -> y < length f ->
  same_group f' x y = Ok true <->
  same_group f x y = Ok true \/
  (same_group f x a = Ok true /\ same_group f b y = Ok true) \/
  (same_group f x b = Ok true /\ same_group f a y = Ok true).
Proof.
  intros Hwf Ha Hb Hu Hx Hy.
  destruct (union_post_roots _ _ _ _ Hwf Hu)
    as (Hwf' & Hlen & ra & rb & w & l & Hra & Hrb & Hwl & Hroots).
  destruct (Hwf _ Hx) as [rx Hrx]. destruct (Hwf _ Hy) as [ry Hry].
  assert (forall u v ru rv, u < length f -> v < length f ->
            root_of f u ru -> root_of f v rv ->
            same_group f u v = Ok true <-> ru = rv) as Hsg.
  { intros u v ru rv Hu' Hv' Hru Hrv. rewrite same_group_true by done. split.
    - intros (r & H1 & H2).
      by rewrite (root_of_det _ _ _ _ Hru H1), (root_of_det _ _ _ _ Hrv H2).
    - intros ->. eauto. }
  rewrite (Hsg x y rx ry), (Hsg x a rx ra), (Hsg b y rb ry),
    (Hsg x b rx rb), (Hsg a y ra ry) by done.
  rewrite same_group_true by (done || lia). split.
  - intros (r & (r1 & H1 & ->)%Hroots & (r2 & H2 & Heq)%Hroots).
    rewrite (root_of_det _ _ _ _ H1 Hrx) in *.
    rewrite (root_of_det _ _ _ _ H2 Hry) in *.
    destruct Hwl as [[-> ->]|[-> ->]]; repeat case_decide; subst; auto.
  - intros Hcases.
    exists (if decide (rx = l) then w else rx). split; apply Hroots.
    + eauto.
    + exists ry. split; [done|].
      destruct Hwl as [[-> ->]|[-> ->]]; repeat case_decide; subst;
        destruct Hcases as [?|[[? ?]|[? ?]]]; congruence.
Qed.

(** X4: [nodeUnion a b] merges the group of [a] with the group of [b] and
    nothing else: afterwards [query x y] holds exactly when it held before,
    or one of [x], [y] was with [a] and the other with [b].  In particular
    [query a b] holds. *)
Theorem nodeUnion_merges_groups f a b :
  wf f -> a < length f -> b < length f ->
  exists f',
    nodeUnion a b f = (f', Ok tt) /\ length f' = length f /\
    snd (query a b f') = Ok true /\
    forall x y, x < length f -> y < length f ->
      snd (query x y f') = Ok true <->
      snd (query x y f) = Ok true \/
      (snd (query x a f) = Ok true /\ snd (query b y f) = Ok true) \/
      (snd (query x b f) = Ok true /\ snd (query a y f) = Ok true).
Proof.
  intros Hwf Ha Hb.
  destruct (nodeUnion_ok _ _ _ Hwf Ha Hb) as (f' & Hu & Hpost).
  destruct (union_post_roots _ _ _ _ Hwf Hpost) as (Hwf' & Hlen & _).
  exists f'. split_and!; try done.
  - apply (union_post_same_group f a b f' a b); try done.
    right. left. split; by apply same_group_refl.
  - intros x y Hx Hy. by apply (union_post_same_group f a b f' x y).
Qed.

(** X5: the order of the two arguments of [nodeUnion] does not matter for
    the groups: after [nodeUnion a b] and after [nodeUnion b a] every
    [query] has the same answer. *)
Theorem nodeUnion_argument_order f a b :
  wf f -> a < length f -> b < length f ->
  forall x y, x < length f -> y < length f ->
    snd (query x y (fst (nodeUnion a b f))) =
    snd (query x y (fst (nodeUnion b a f))).
Proof.
  intros Hwf Ha Hb x y Hx Hy.
  destruct (nodeUnion_ok _ _ _ Hwf Ha Hb) as (f1 & Hu1 & Hp1).
  destruct (nodeUnion_ok _ _ _ Hwf Hb Ha) as (f2 & Hu2 & Hp2).
  destruct (union_post_roots _ _ _ _ Hwf Hp1) as (Hwf1 & Hlen1 & _).
  destruct (union_post_roots _ _ _ _ Hwf Hp2) as (Hwf2 & Hlen2 & _).
  rewrite Hu1, Hu2. simpl.
  apply (same_group_eq f1 f2 x y x y); try done; try lia.
  rewrite (union_post_same_group f a b f1 x y) by done.
  rewrite (union_post_same_group f b a f2 x y) by done.
  tauto.
Qed.

(** ** The union requests and connectivity *)

Lemma coarsens_same_group f f' x y :
  wf f -> wf f' -> length f' = length f -> coarsens f f' ->
  same_group f x y = Ok true -> same_group f' x y = Ok true.
Proof.
  intros Hwf Hwf' Hlen Hco Hxy.
  destruct (same_group_valid _ _ _ Hwf Hxy) as [Hx Hy].
  apply same_group_true in Hxy as (r & Hrx & Hry); [|done..].
  apply same_group_true; [done|lia|lia|]. eauto.
Qed.

Lemma unions_cons_ok a b us f f1 :
  nodeUnion a b f = (f1, Ok tt) -> unions ((a, b) :: us) f = unions us f1.
Proof. intros Hu. simpl. unfold bind. by rewrite Hu. Qed.

Lemma unions_edge f us a b :
  wf f -> Forall (valid_pair (length f)) us -> (a, b) ∈ us ->
  same_group (fst (unions us f)) a b = Ok true.
Proof.
  intros Hwf Hus. revert f Hwf Hus.
  induction us as [|[a0 b0] us IH]; intros f Hwf Hus Hin.
  { by apply elem_of_nil in Hin. }
  apply Forall_cons in Hus as [[Ha0 Hb0] Hus]. simpl in Ha0, Hb0.
  destruct (nodeUnion_ok _ _ _ Hwf Ha0 Hb0) as (f1 & Hu & Hpost).
  destruct (union_post_roots _ _ _ _ Hwf Hpost) as (Hwf1 & Hlen1 & _).
  rewrite (unions_cons_ok _ _ _ _ _ Hu). rewrite <- Hlen1 in Hus.
  apply elem_of_cons in Hin as [[= -> ->]|Hin]; [|by apply IH].
  destruct (unions_ok _ _ Hwf1 Hus) as (f2 & Hrun & Hwf2 & Hlen2 & Hco & _).
  rewrite Hrun. simpl.
  apply (coarsens_same_group f1 f2); try done.
  destruct (union_post_joins _ _ _ _ Hwf Hpost) as (r & Hra & Hrb).
  apply same_group_true; [done|lia|lia|]. eauto.
Qed.

Lemma joined_valid f us x y :
  wf f -> Forall (valid_pair (length f)) us ->
  joined f us x y -> x < length f /\ y < length f.
Proof.
  intros Hwf Hus. induction 1 as [x y Hxy|a b Hin|x y _ IH|x y z _ IH1 _ IH2].
  - by eapply same_group_valid.
  - rewrite Forall_forall in Hus. apply (Hus _ Hin).
  - tauto.
  - tauto.
Qed.

Lemma joined_unions f us x y :
  wf f -> Forall (valid_pair (length f)) us ->
  joined f us x y -> same_group (fst (unions us f)) x y = Ok true.
Proof.
  intros Hwf Hus.
  destruct (unions_ok _ _ Hwf Hus) as (f' & Hrun & Hwf' & Hlen & Hco & _).
  induction 1 as [x y Hxy|a b Hin|x y _ IH|x y z _ IH1 _ IH2].
  - rewrite Hrun. simpl. by apply (coarsens_same_group f f').
  - by apply unions_edge.
  - rewrite Hrun in *. simpl in *. by apply same_group_true_sym.
  - rewrite Hrun in *. simpl in *. by eapply same_group_trans.
Qed.

Lemma joined_step f a b f1 us x y :
  wf f -> a < length f -> b < length f -> union_post f a b f1 ->
  joined f1 us x y -> joined f ((a, b) :: us) x y.
Proof.
  intros Hwf Ha Hb Hpost.
  destruct (union_post_roots _ _ _ _ Hwf Hpost) as (Hwf1 & Hlen1 & _).
  induction 1 as [x y Hxy|a' b' Hin|x y _ IH|x y z _ IH1 _ IH2].
  - destruct (same_group_valid _ _ _ Hwf1 Hxy) as [Hx Hy].
    apply (union_post_same_group f a b f1 x y) in Hxy; [|done || lia..].
    assert (joined f ((a, b) :: us) a b) as Hab
      by (apply joined_edge; by left).
    destruct Hxy as [?|[[? ?]|[? ?]]].
    + by apply joined_group.
    + eapply joined_trans; [by apply joined_group|].
      eapply joined_trans; [done|by apply joined_group].
    + eapply joined_trans; [by apply joined_group|].
      eapply joined_trans; [by apply joined_sym|by apply joined_group].
  - apply joined_edge. by right.
  - by apply joined_sym.
  - by eapply joined_trans.
Qed.

Lemma unions_joined f us x y :
  wf f -> Forall (valid_pair (length f)) us ->
  same_group (fst (unions us f)) x y = Ok true -> joined f us x y.
Proof.
  intros Hwf Hus. revert f Hwf Hus.
  induction us as [|[a b] us IH]; intros f Hwf Hus Hxy.
  { by apply joined_group. }
  apply Forall_cons in Hus as [[Ha Hb] Hus]. simpl in Ha, Hb.
  destruct (nodeUnion_ok _ _ _ Hwf Ha Hb) as (f1 & Hu & Hpost).
  destruct (union_post_roots _ _ _ _ Hwf Hpost) as (Hwf1 & Hlen1 & _).
  rewrite (unions_cons_ok _ _ _ _ _ Hu) in Hxy. rewrite <- Hlen1 in Hus.
  eapply joined_step; eauto.
Qed.

Lemma connected_valid n us x y :
  Forall (valid_pair n) us -> connected us x y -> x < n <-> y < n.
Proof.
  intros Hus. induction 1 as [x|a b Hin|x y _ IH|x y z _ IH1 _ IH2];
    [done| |tauto..].
  rewrite Forall_forall in Hus. destruct (Hus _ Hin). simpl in *. tauto.
Qed.


Lemma joined_make_connected ms us x y :
  Forall (valid_pair (length ms)) us ->
  joined (make ms) us x y <-> (x < length ms /\ connected us x y).
Proof.
  intros Hus. split.
  - intros Hj. split.
    { rewrite <- make_length in *.
      by destruct (joined_valid _ _ _ _ (make_wf ms) Hus Hj). }
    induction Hj as [x y Hxy|a b Hin|x y _ IH|x y z _ IH1 _ IH2];
      eauto using connected.
    destruct (same_group_valid _ _ _ (make_wf ms) Hxy) as [Hx Hy].
    rewrite make_length in Hx, Hy.
    apply same_group_true in Hxy as (r & Hrx & Hry);
      [|apply make_wf|by rewrite make_length..].
    rewrite (root_of_det _ _ _ _ Hrx (make_root_of ms x Hx)) in Hry.
    rewrite (root_of_det _ _ _ _ Hry (make_root_of ms y Hy)).
    constructor.
  - intros [Hx Hc]. revert Hx.
    induction Hc as [x|a b Hin|x y Hc IH|x y z Hc1 IH1 Hc2 IH2]; intros Hx.
    + apply joined_group, same_group_refl; [apply make_wf|].
      by rewrite make_length.
    + by apply joined_edge.
    + apply joined_sym, IH. by apply (connected_valid _ us x y).
    + eapply joined_trans; [by apply IH1|]. apply IH2.
      by apply (connected_valid _ us x y).
Qed.

Lemma unions_make_connected ms us a b :
  Forall (valid_pair (length ms)) us -> a < length ms ->
  same_group (fst (unions us (make ms))) a b = Ok true <-> connected us a b.
Proof.
  intros Hus Ha. pose proof Hus as Hus'. rewrite <- make_length in Hus'.
  split.
  - intros Hab. apply (unions_joined _ _ _ _ (make_wf ms) Hus') in Hab.
    by apply joined_make_connected in Hab as [_ ?].
  - intros Hc. apply joined_unions; [apply make_wf|done|].
    by apply joined_make_connected.
Qed.

(** X6: after the union requests of [main], two entities are in one group
    exactly when the requests connect them (by a chain of requested pairs,
    taken in either direction). *)
Theorem unions_connect ms us :
  Forall (valid_pair (length ms)) us ->
  forall a b, a < length ms -> b < length ms ->
    snd (query a b (fst (unions us (make ms)))) = Ok true <->
    connected us a b.
Proof. intros Hus a b Ha _. by apply unions_make_connected. Qed.

(** ** main as a whole *)

Lemma main_unfold ms us :
  Forall (valid_pair (length ms)) us ->
  exists f1,
    unions us (make ms) = (f1, Ok tt) /\ wf f1 /\ length f1 = length ms /\
    (forall y, value f1 y = input_value ms y) /\
    main ms us = snd (verify f1).
Proof.
  intros Hus. rewrite <- make_length in Hus.
  destruct (unions_ok _ _ (make_wf ms) Hus) as (f1 & Hrun & Hwf & Hlen & _ & Hm).
  exists f1. split_and!; try done.
  - by rewrite Hlen, make_length.
  - intros y. by rewrite (same_money_value _ _ _ Hm), make_value.
  - unfold main, bind. by rewrite Hrun.
Qed.



(** X8: the program as a whole.  When every request names two of the [n]
    entities, [main] prints a verdict, and it is [POSSIBLE] exactly when for
    every entity the values of the entities connected to it by the requests
    add up to zero in [int] arithmetic. *)
Theorem main_verdict ms us :
  Forall (valid_pair (length ms)) us ->
  exists v,
    main ms us = Ok v /\
    (v = POSSIBLE <->
     forall a l, a < length ms -> NoDup l ->
       (forall y, y ∈ l <-> y < length ms /\ connected us a y) ->
       wrap (zsum (input_value ms <$> l)) = 0%Z).
Proof.
  intros Hus.
  destruct (main_unfold ms us Hus) as (f1 & Hrun & Hwf & Hlen & Hval & ->).
  destruct (verify_ok f1 Hwf) as (f' & v & Hv & _ & Hpos).
  exists v. rewrite Hv. split; [done|]. rewrite Hpos.
  assert (forall r, group_sum f1 r =
            wrap (zsum (input_value ms <$> members f1 r))) as Hsum.
  { intros r. unfold group_sum. rewrite int_sum_wrap. do 2 f_equal.
    apply list_fmap_ext. intros _ y _. apply Hval. }
  assert (forall a r y, a < length ms -> rep f1 a = Ok r ->
            y ∈ members f1 r <-> y < length ms /\ connected us a y) as Hmem.
  { intros a r y Ha Hr. unfold members, members_in.
    rewrite list_elem_of_filter, elem_of_seq, Hlen.
    pose proof (unions_make_connected ms us a y Hus Ha) as Hc.
    rewrite Hrun in Hc. simpl in Hc. rewrite <- Hc. split.
    - intros [Hy ?]. split; [lia|].
      apply (members_same_group f1 a r y); try done; lia.
    - intros [? Hy]. split; [|lia].
      apply (members_same_group f1 a r y); try done; lia. }
  split.
  - intros Hall a l Ha Hnd Hl.
    assert (a < length f1) as Ha1 by lia.
    destruct (Hwf _ Ha1) as [r Hr]. apply rep_root_of in Hr; [|done..].
    rewrite <- (Hall r), Hsum. f_equal. apply zsum_perm, fmap_Permutation.
    apply NoDup_Permutation; [done| |].
    + apply NoDup_filter, NoDup_seq.
    + intros y. by rewrite Hl, (Hmem a r y).
  - intros Hall r. rewrite Hsum.
    destruct (members f1 r) as [|x g] eqn:Hg; [done|].
    assert (x ∈ members f1 r) as Hx by (rewrite Hg; by left).
    pose proof Hx as Hx'.
    apply list_elem_of_filter in Hx' as [Hrx Hxn%elem_of_seq].
    rewrite <- Hg. apply (Hall x); [lia| |].
    + apply NoDup_filter, NoDup_seq.
    + intros y. apply Hmem; [lia|done].
Qed.

(** X9: when every union request names two existing entities, [main]
    dereferences no address outside the heap and every [find] returns: it
    prints [POSSIBLE] or [IMPOSSIBLE]. *)
Theorem main_returns_on_valid_requests ms us :
  Forall (valid_pair (length ms)) us ->
  main ms us = Ok POSSIBLE \/ main ms us = Ok IMPOSSIBLE.
Proof.
  intros Hus.
  destruct (main_unfold ms us Hus) as (f1 & _ & Hwf & _ & _ & ->).
  destruct (verify_ok f1 Hwf) as (f' & v & -> & _). destruct v; auto.
Qed.

(** ** Union by rank keeps the trees shallow *)

Lemma rank_order_path f k x r nx nr :
  rank_order f -> root_in f k x r ->
  f !! x = Some nx -> f !! r = Some nr ->
  (rank nx + Z.of_nat k <= rank nr)%Z.
Proof.
  intros Hord H. revert nx.
  induction H as [x nx0 Hx Hp | k x nx0 r Hx Hp H IH]; intros nx Hnx Hnr.
  - assert (nx = nr) as -> by congruence. lia.
  - assert (nx0 = nx) as -> by congruence.
    destruct (Hord _ _ Hx Hp) as (np & Hnp & Hlt).
    specialize (IH _ Hnp Hnr). lia.
Qed.

Lemma rank_order_compressed f f' :
  compressed f f' -> rank_order f -> rank_order f'.
Proof.
  intros [Hlen Hc] Hord x nx' Hx' Hp'.
  assert (x < length f) as Hx by (rewrite <- Hlen; eauto using lookup_lt_Some).
  destruct (lookup_lt_is_Some_2 _ _ Hx) as [nx Hnx].
  destruct (Hc _ _ Hnx) as (nx'' & Hx'' & Hrk & _ & Hpar).
  assert (nx'' = nx') as -> by congruence.
  assert (forall p np, f !! p = Some np -> (rank nx < rank np)%Z ->
            exists np', f' !! p = Some np' /\ (rank nx' < rank np')%Z) as Hmove.
  { intros p np Hnp Hlt. destruct (Hc _ _ Hnp) as (np' & ? & Hrk' & _).
    exists np'. split; [done|]. lia. }
  destruct Hpar as [Hpar|[k Hroot]].
  - rewrite Hpar in *. destruct (Hord _ _ Hnx Hp') as (np & Hnp & Hlt). eauto.
  - destruct (root_of_self_node f x (parent nx')) as (nr & Hnr & _);
      [by exists k|].
    pose proof (rank_order_path _ _ _ _ _ _ Hord Hroot Hnx Hnr) as Hle.
    destruct k as [|k]; [|eapply Hmove; [done|lia]].
    inversion Hroot; subst. congruence.
Qed.

Lemma root_rank_no_wrap f2 w (S : gset nat) nw :
  wf f2 -> (Z.of_nat (length f2) <= INT_MAX)%Z ->
  (forall x, x ∈ S -> exists nx, f2 !! x = Some nx /\ parent nx <> x) ->
  (forall y ny, f2 !! y = Some ny -> (0 <= rank ny <= Z.of_nat (size S))%Z) ->
  f2 !! w = Some nw ->
  (0 <= rank nw)%Z /\ wrap (rank nw + 1) = (rank nw + 1)%Z.
Proof.
  intros Hwf Hmax HS Hrk Hw. pose proof (Hrk _ _ Hw) as Hr.
  assert (size S < length f2) as Hsize.
  { apply nonroots_size; [done| |done]. apply lookup_lt_Some in Hw. lia. }
  split; [lia|]. apply wrap_small. unfold in_int, INT_MIN, INT_MAX in *. lia.
Qed.

Lemma rank_order_merged f2 w l f' :
  wf f2 -> (Z.of_nat (length f2) <= INT_MAX)%Z -> ranks_inv f2 ->
  merged f2 w l f' -> rank_order f2 -> rank_order f'.
Proof.
  intros Hwf Hmax (S & HS & Hrk) Hm Hord.
  destruct (merged_lookup _ _ _ _ Hm)
    as (nw & nl & Hw & Hl & Hwl & Hle & Hl' & Hw' & Hrest).
  destruct Hm as (nw0 & nl0 & Hw0 & Hl0 & _ & Hpw & Hpl & _ & _).
  assert (nw0 = nw) as -> by congruence.
  assert (nl0 = nl) as -> by congruence.
  destruct (root_rank_no_wrap f2 w S nw) as [Hnn Hnw]; try done.
  set (nw' := if (rank nw =? rank nl)%Z
              then set_rank (wrap (rank nw + 1)) nw else nw) in *.
  assert ((rank nw <= rank nw')%Z /\ (rank nl < rank nw')%Z) as [Hw1 Hw2].
  { unfold nw'. destruct (Z.eqb_spec (rank nw) (rank nl)); simpl; lia. }
  assert (parent nw' = w) as Hpw'.
  { unfold nw'. by destruct (_ =? _)%Z. }
  intros x nx' Hx' Hp'.
  destruct (decide (x = l)) as [->|Hxl];
    [|destruct (decide (x = w)) as [->|Hxw]].
  - assert (nx' = set_parent w nl) as -> by congruence. simpl.
    exists nw'. done.
  - assert (nx' = nw') as -> by congruence. congruence.
  - rewrite Hrest in Hx' by done.
    destruct (Hord _ _ Hx' Hp') as (np & Hnp & Hlt).
    destruct (decide (parent nx' = l)) as [Hpl'|Hnl];
      [|destruct (decide (parent nx' = w)) as [Hpw''|Hnw']].
    + rewrite Hpl'. exists (set_parent w nl). split; [done|]. simpl.
      assert (np = nl) as -> by congruence. done.
    + rewrite Hpw''. exists nw'. split; [done|].
      assert (np = nw) as -> by congruence. lia.
    + exists np. by rewrite Hrest.
Qed.

Lemma filter_length_or {A} (P Q R : A -> Prop)
    `{!forall x, Decision (P x), !forall x, Decision (Q x),
      !forall x, Decision (R x)} (l : list A) :
  (forall x, x ∈ l -> P x <-> Q x \/ R x) ->
  (forall x, x ∈ l -> ~ (Q x /\ R x)) ->
  length (filter P l) = length (filter Q l) + length (filter R l).
Proof.
  induction l as [|a l IH]; intros Hor Hdis; [done|].
  rewrite !filter_cons.
  pose proof (Hor a ltac:(by left)) as Ha.
  pose proof (Hdis a ltac:(by left)) as Hda.
  assert (length (filter P l) =
          length (filter Q l) + length (filter R l)) as IH'.
  { apply IH; intros x Hx; [apply Hor|apply Hdis]; by right. }
  repeat case_decide; simpl; try lia; tauto.
Qed.

Lemma rank_size_compressed f f' :
  wf f -> compressed f f' -> rank_size f -> rank_size f'.
Proof.
  intros Hwf Hc Hsz r nr' Hr' Hp'.
  pose proof Hc as [Hlen Hc'].
  assert (root_of f r r) as Hroot.
  { apply (compressed_root_of f f'); [done..|].
    exists 0. by econstructor. }
  destruct (root_of_self_node _ _ _ Hroot) as (nr & Hnr & Hp).
  destruct (Hc' _ _ Hnr) as (nr'' & Hr'' & Hrk & _).
  assert (nr'' = nr') as -> by congruence.
  rewrite Hrk.
  assert (members f' r = members f r) as ->; [|by apply Hsz].
  unfold members, members_in. rewrite Hlen.
  apply filter_ext_in. intros y Hy%elem_of_seq.
  by rewrite (rep_compressed f f') by (done || lia).
Qed.

Lemma merged_rep f2 w l f' y r :
  wf f2 -> merged f2 w l f' -> y < length f2 ->
  rep f' y = Ok r <->
  exists r2, rep f2 y = Ok r2 /\ r = (if decide (r2 = l) then w else r2).
Proof.
  intros Hwf Hm Hy.
  rewrite rep_root_of;
    [|by eapply merged_wf|by rewrite (merged_length _ _ _ _ Hm)].
  rewrite (merged_root_of f2 w l f') by done.
  split; intros (r2 & H2 & ->); exists r2; (split; [|done]);
    by apply rep_root_of.
Qed.

Lemma rank_size_merged f2 w l f' :
  wf f2 -> (Z.of_nat (length f2) <= INT_MAX)%Z -> ranks_inv f2 ->
  merged f2 w l f' -> rank_size f2 -> rank_size f'.
Proof.
  intros Hwf Hmax (S & HS & Hrk) Hm Hsz.
  destruct (merged_lookup _ _ _ _ Hm)
    as (nw & nl & Hw & Hl & Hwl & Hle & Hl' & Hw' & Hrest).
  pose proof Hm as (nw0 & nl0 & Hw0 & Hl0 & _ & Hpw & Hpl & _ & _).
  assert (nw0 = nw) as -> by congruence.
  assert (nl0 = nl) as -> by congruence.
  destruct (root_rank_no_wrap f2 w S nw) as [Hnn Hnw]; try done.
  pose proof (merged_length _ _ _ _ Hm) as Hlen.
  intros r nr' Hr' Hp'.
  destruct (decide (r = l)) as [->|Hrl];
    [|destruct (decide (r = w)) as [->|Hrw]].
  - assert (nr' = set_parent w nl) as -> by congruence. simpl in Hp'. done.
  - assert (length (members f' w) =
            length (members f2 w) + length (members f2 l)) as ->.
    { unfold members, members_in. rewrite Hlen.
      apply filter_length_or.
      - intros y Hy%elem_of_seq.
        rewrite (merged_rep f2 w l f') by (done || lia). split.
        + intros (r2 & H2 & Heq). case_decide; subst; auto.
        + intros [H2|H2]; eexists; (split; [exact H2|]);
            case_decide; congruence.
      - intros y _ [H1 H2]. congruence. }
    pose proof (Hsz _ _ Hw Hpw) as Hsw. pose proof (Hsz _ _ Hl Hpl) as Hsl.
    rewrite Hw' in Hr'. injection Hr' as <-.
    destruct (Z.eqb_spec (rank nw) (rank nl)) as [Heq|Hneq]; simpl; [|lia].
    rewrite Hnw, Z.pow_add_r, Z.pow_1_r by lia. rewrite <- Heq in Hsl. lia.
  - rewrite Hrest in Hr' by done.
    assert (members f' r = members f2 r) as ->; [|by apply Hsz].
    unfold members, members_in. rewrite Hlen.
    apply filter_ext_in. intros y Hy%elem_of_seq.
    rewrite (merged_rep f2 w l f') by (done || lia). split.
    + intros (r2 & H2 & Heq). case_decide; congruence.
    + intros H2. exists r. split; [done|]. by rewrite decide_False.
Qed.

Lemma run_op_rank_shape f o :
  wf f -> (Z.of_nat (length f) <= INT_MAX)%Z ->
  valid_op (length f) o -> ranks_inv f ->
  rank_order f /\ rank_size f ->
  rank_order (fst (run_op o f)) /\ rank_size (fst (run_op o f)).
Proof.
  intros Hwf Hmax Hv Hinv [Hord Hsz]. destruct o as [x|a b|a b]; simpl in Hv.
  - destruct (find_ok _ _ Hwf Hv) as (f' & r & Hf & _ & _ & Hc & _).
    simpl. unfold bind, ret. rewrite Hf. simpl.
    eauto using rank_order_compressed, rank_size_compressed.
  - destruct Hv as [Ha Hb].
    destruct (nodeUnion_ok _ _ _ Hwf Ha Hb)
      as (f' & Hu & ra & rb & f1 & f2 & _ & _ & _ & _ & _ & _ & _ & Hc & _ &
          Hwf2 & Hsame & Hdiff).
    simpl. rewrite Hu. simpl.
    pose proof (ranks_inv_compressed _ _ Hc Hinv) as Hinv2.
    pose proof (rank_order_compressed _ _ Hc Hord) as Hord2.
    pose proof (rank_size_compressed _ _ Hwf Hc Hsz) as Hsz2.
    destruct (decide (ra = rb)) as [Heq|Hne]; [by rewrite (Hsame Heq)|].
    destruct (Hdiff Hne) as (na & nb & _ & _ & Hm).
    assert (Z.of_nat (length f2) <= INT_MAX)%Z
      by (destruct Hc as [-> _]; done).
    destruct (_ <? _)%Z;
      eauto using rank_order_merged, rank_size_merged.
  - destruct Hv as [Ha Hb].
    destruct (query_ok _ _ _ Hwf Ha Hb) as (f' & ra & rb & Hq & _ & _ & Hc & _).
    simpl. unfold bind, ret. rewrite Hq. simpl.
    eauto using rank_order_compressed, rank_size_compressed.
Qed.

Lemma make_rank_shape ms : rank_order (make ms) /\ rank_size (make ms).
Proof.
  split.
  - intros x nx Hx Hp. rewrite make_lookup in Hx.
    destruct (ms !! x); simplify_eq/=.
  - intros r nr Hr Hp. pose proof (lookup_lt_Some _ _ _ Hr) as Hlt.
    rewrite make_lookup in Hr. destruct (ms !! r) eqn:E; [|done].
    simpl in Hr. injection Hr as <-. simpl. clear Hp.
    assert (r ∈ members (make ms) r) as Hin.
    { apply list_elem_of_filter. split; [|apply elem_of_seq; lia].
      apply rep_root_of; [apply make_wf|done|].
      apply make_root_of. by rewrite <- make_length. }
    destruct (members (make ms) r); [by apply elem_of_nil in Hin|].
    simpl. lia.
Qed.

(** Every state reached from the initial forest keeps the rank
    invariants. *)
Lemma reachable_rank_shape ms ops :
  (Z.of_nat (length ms) <= INT_MAX)%Z ->
  Forall (valid_op (length ms)) ops ->
  exists f,
    run_ops ops (make ms) = (f, Ok tt) /\ wf f /\ length f = length ms /\
    ranks_inv f /\ rank_order f /\ rank_size f.
Proof.
  intros Hmax Hops.
  assert (forall f, wf f -> length f = length ms -> ranks_inv f ->
            rank_order f /\ rank_size f ->
            exists f', run_ops ops f = (f', Ok tt) /\ wf f' /\
              length f' = length ms /\ ranks_inv f' /\
              rank_order f' /\ rank_size f') as Hgen.
  { induction Hops as [|o ops Ho Hops IH]; intros f Hwf Hlen Hinv Hshape.
    { exists f. by destruct Hshape. }
    rewrite <- Hlen in Ho, Hmax.
    destruct (run_op_ok _ _ Hwf Ho) as (f1 & Hrun & Hwf1 & Hlen1 & _).
    pose proof (run_op_ranks _ _ Hwf Hmax Ho Hinv) as Hinv1.
    pose proof (run_op_rank_shape _ _ Hwf Hmax Ho Hinv Hshape) as Hshape1.
    rewrite Hrun in Hinv1, Hshape1. simpl in Hinv1, Hshape1.
    simpl. unfold bind. rewrite Hrun. apply IH; [done|congruence|done..]. }
  apply Hgen; auto using make_wf, make_length, ranks_inv_make,
    make_rank_shape.
Qed.

Lemma rank_shape_bound f k x r nx :
  wf f -> ranks_inv f -> rank_order f -> rank_size f ->
  root_in f k x r -> f !! x = Some nx ->
  (0 <= rank nx)%Z /\
  (2 ^ (rank nx + Z.of_nat k) <= Z.of_nat (length f))%Z.
Proof.
  intros Hwf (S & _ & Hrk) Hord Hsz Hroot Hx.
  destruct (root_of_self_node f x r) as (nr & Hnr & Hp); [by exists k|].
  pose proof (rank_order_path _ _ _ _ _ _ Hord Hroot Hx Hnr) as Hle.
  pose proof (Hsz _ _ Hnr Hp) as Hsize.
  pose proof (Hrk _ _ Hx) as [Hnn _]. split; [done|].
  assert (length (members f r) <= length f) as Hlen.
  { unfold members, members_in.
    etrans; [apply length_filter|]. by rewrite length_seq. }
  assert (2 ^ (rank nx + Z.of_nat k) <= 2 ^ rank nr)%Z
    by (apply Z.pow_le_mono_r; lia).
  lia.
Qed.

(** X10: in every state reached from the initial forest (of at most
    [INT_MAX] entities) by [find], [nodeUnion] and [query] calls, every rank
    lies in [0, n), so [rank++] never leaves the [int] range, and the rank of
    a node that is no representative is below the rank of its parent. *)
Theorem ranks_increase_to_root ms ops :
  (Z.of_nat (length ms) <= INT_MAX)%Z ->
  Forall (valid_op (length ms)) ops ->
  exists f,
    run_ops ops (make ms) = (f, Ok tt) /\
    forall x nx, f !! x = Some nx ->
      (0 <= rank nx < Z.of_nat (length ms))%Z /\
      (parent nx <> x ->
         exists np, f !! parent nx = Some np /\ (rank nx < rank np)%Z).
Proof.
  intros Hmax Hops.
  destruct (reachable_rank_shape ms ops Hmax Hops)
    as (f & Hrun & Hwf & Hlen & Hinv & Hord & Hsz).
  exists f. split; [done|]. intros x nx Hx. split; [|by apply Hord].
  pose proof (reachable_ranks ms ops Hmax Hops x nx) as Hr.
  rewrite Hrun in Hr. by apply Hr.
Qed.

(** X11: union by rank: in every such state a representative of rank [k]
    has at least [2^k] entities in its group, so [2^rank <= n] for every
    node. *)
Theorem root_rank_bounds_group ms ops :
  (Z.of_nat (length ms) <= INT_MAX)%Z ->
  Forall (valid_op (length ms)) ops ->
  exists f,
    run_ops ops (make ms) = (f, Ok tt) /\
    (forall r nr, f !! r = Some nr -> parent nr = r ->
       (2 ^ rank nr <= Z.of_nat (length (members f r)))%Z /\
       length (members f r) <= length ms) /\
    (forall x nx, f !! x = Some nx ->
       (2 ^ rank nx <= Z.of_nat (length ms))%Z).
Proof.
  intros Hmax Hops.
  destruct (reachable_rank_shape ms ops Hmax Hops)
    as (f & Hrun & Hwf & Hlen & Hinv & Hord & Hsz).
  exists f. split; [done|]. split.
  - intros r nr Hr Hp. split; [by apply Hsz|].
    unfold members, members_in. etrans; [apply length_filter|].
    by rewrite length_seq, Hlen.
  - intros x nx Hx.
    destruct (Hwf x) as [r [k Hroot]]; [by eapply lookup_lt_Some|].
    destruct (rank_shape_bound f k x r nx) as [Hnn Hb]; try done.
    rewrite Hlen in Hb.
    assert (2 ^ rank nx <= 2 ^ (rank nx + Z.of_nat k))%Z
      by (apply Z.pow_le_mono_r; lia).
    lia.
Qed.

(** X12: in every such state every entity is at most [log2 n] parent links
    from its representative: [find x] returns after [k + 1] nested calls
    for a [k] with [2^k <= n]. *)
Theorem find_depth_logarithmic ms ops :
  (Z.of_nat (length ms) <= INT_MAX)%Z ->
  Forall (valid_op (length ms)) ops ->
  exists f,
    run_ops ops (make ms) = (f, Ok tt) /\
    forall x, x < length ms ->
      exists k r,
        root_in f k x r /\ (2 ^ Z.of_nat k <= Z.of_nat (length ms))%Z /\
        forall fuel, k < fuel -> find_rec fuel x f = find x f.
Proof.
  intros Hmax Hops.
  destruct (reachable_rank_shape ms ops Hmax Hops)
    as (f & Hrun & Hwf & Hlen & Hinv & Hord & Hsz).
  exists f. split; [done|]. intros x Hx. rewrite <- Hlen in Hx.
  destruct (Hwf x Hx) as [r [k Hroot]]. exists k, r. split; [done|].
  destruct (lookup_lt_is_Some_2 _ _ Hx) as [nx Hnx].
  destruct (rank_shape_bound f k x r nx) as [Hnn Hb]; try done.
  rewrite Hlen in Hb. split.
  - assert (2 ^ Z.of_nat k <= 2 ^ (rank nx + Z.of_nat k))%Z
      by (apply Z.pow_le_mono_r; lia).
    lia.
  - intros fuel Hfuel.
    destruct (find_rec_spec _ _ _ _ Hroot fuel Hfuel) as (f1 & Hf1 & Hp1).
    destruct (find_total f x r) as (f2 & Hf2 & Hp2); [by exists k|].
    rewrite Hf1, Hf2. f_equal.
    destruct Hp1 as [Hl1 Hp1]. destruct Hp2 as [Hl2 Hp2].
    apply list_eq. intros y. destruct (f !! y) as [ny|] eqn:Hy.
    + destruct (Hp1 _ _ Hy) as (n1 & -> & Hr1 & Hm1 & Hon1 & Hoff1).
      destruct (Hp2 _ _ Hy) as (n2 & -> & Hr2 & Hm2 & Hon2 & Hoff2).
      f_equal.
      destruct (on_path_dec _ _ _ _ y Hroot) as [Hon|Hoff].
      * destruct n1, n2. simpl in *. specialize (Hon1 Hon).
        specialize (Hon2 Hon). congruence.
      * by rewrite (Hoff1 Hoff), (Hoff2 Hoff).
    + apply lookup_ge_None in Hy.
      rewrite (lookup_ge_None_2 f1), (lookup_ge_None_2 f2) by lia. done.
Qed.

(** ** Compressed paths stay compressed *)

Lemma set_parent_id nx : set_parent (parent nx) nx = nx.
Proof. by destruct nx. Qed.

(** [find] on a node whose parent is a representative writes nothing. *)
Lemma find_fixpoint f x nx np :
  f !! x = Some nx -> f !! parent nx = Some np -> parent np = parent nx ->
  find x f = (f, Ok (parent nx)).
Proof.
  intros Hx Hp Hpp. pose proof (lookup_lt_Some _ _ _ Hx) as Hlt.
  unfold find. destruct (length f) as [|n] eqn:Hlen; [lia|].
  simpl. unfold bind at 1. unfold load at 1. rewrite Hx.
  destruct (decide (parent nx = x)) as [Heq|Hne].
  - unfold load. by rewrite Hx.
  - unfold bind at 1. unfold bind at 1. unfold load at 1. rewrite Hp.
    rewrite decide_True by done. unfold load at 1. rewrite Hp, Hpp.
    unfold bind, store, load. rewrite Hx.
    rewrite set_parent_id, list_insert_id by done. by rewrite Hx.
Qed.

Lemma find_post_flat_path f x r f1 y :
  root_of f x r -> find_post f x r f1 -> on_path f x y ->
  exists ny nr, f1 !! y = Some ny /\ parent ny = r /\
    f1 !! r = Some nr /\ parent nr = r.
Proof.
  intros [k Hroot] [Hlen Hpost] Hon.
  destruct (on_path_root_in _ _ _ _ _ Hroot Hon) as (j & _ & Hj).
  assert (exists ny0, f !! y = Some ny0) as [ny0 Hy0].
  { apply lookup_lt_is_Some_2. by eapply root_in_lt. }
  destruct (Hpost _ _ Hy0) as (ny & Hy & _ & _ & Hony & _).
  destruct (root_of_self_node f x r) as (nr0 & Hr0 & Hpr0); [by exists k|].
  destruct (Hpost _ _ Hr0) as (nr & Hr & _ & _ & Honr & _).
  exists ny, nr. split_and!; auto.
  apply Honr. by eapply on_path_root.
Qed.

(** X13: after [find x] every entity visited by the call has the
    representative as parent, and a further [find] on any of them returns
    the same representative and writes nothing. *)
Theorem find_twice f x :
  wf f -> x < length f ->
  exists f1 r,
    find x f = (f1, Ok r) /\
    forall y, on_path f x y ->
      (exists ny, f1 !! y = Some ny /\ parent ny = r) /\
      find y f1 = (f1, Ok r).
Proof.
  intros Hwf Hx.
  destruct (find_ok _ _ Hwf Hx) as (f1 & r & Hf & Hr & Hpost & _).
  exists f1, r. split; [done|]. intros y Hon.
  destruct (find_post_flat_path _ _ _ _ _ Hr Hpost Hon)
    as (ny & nr & Hy & Hpy & Hnr & Hpr).
  split; [by eauto|].
  rewrite <- Hpy. apply (find_fixpoint f1 y ny nr); congruence.
Qed.

(** ** The heap after the aggregation pass *)

Lemma scan_step_heap fc i sums :
  wf fc -> i < length fc ->
  exists r sums',
    scan_step i sums fc = (fst (find i fc), Ok sums') /\
    find i fc = (fst (find i fc), Ok r).
Proof.
  intros Hwf Hi.
  destruct (find_ok _ _ Hwf Hi) as (f1 & r & Hf & _ & _ & [Hlen _] & _).
  assert (i < length f1) as Hi1 by lia.
  destruct (lookup_lt_is_Some_2 _ _ Hi1) as [ni Hni].
  exists r. eexists. unfold scan_step, bind. rewrite Hf. simpl.
  unfold load, ret. rewrite Hni. done.
Qed.

Lemma scan_heap f order sums :
  wf f -> Forall (fun i => i < length f) order ->
  fst (scan order sums f) = fst (finds order f) /\
  snd (finds order f) = Ok tt.
Proof.
  intros Hwf Hord. revert f sums Hwf Hord.
  induction order as [|i order IH]; intros f sums Hwf Hord; [done|].
  apply Forall_cons in Hord as [Hi Hord].
  destruct (scan_step_heap f i sums Hwf Hi) as (r & sums' & Hstep & Hf).
  destruct (find_ok _ _ Hwf Hi) as (f1 & r' & Hf' & _ & _ & [Hlen _] & Hwf1).
  rewrite Hf' in Hstep, Hf. simpl in Hstep, Hf.
  simpl. unfold bind. rewrite Hstep, Hf'. apply IH; [done|].
  by rewrite Hlen.
Qed.

(** Nodes whose parent is a representative stay so under [find]. *)
Lemma find_keeps_flat f x f1 r y ny :
  wf f -> root_of f x r -> find_post f x r f1 ->
  f !! y = Some ny -> root_of f (parent ny) (parent ny) ->
  exists ny1, f1 !! y = Some ny1 /\ root_of f1 (parent ny1) (parent ny1).
Proof.
  intros Hwf Hr Hpost Hy Hflat.
  pose proof (find_post_compressed _ _ _ _ Hr Hpost) as Hc.
  destruct Hr as [k Hroot]. destruct Hpost as [Hlen Hpost].
  destruct (Hpost _ _ Hy) as (ny1 & Hy1 & _ & _ & Hon & Hoff).
  exists ny1. split; [done|].
  apply (compressed_root_of f f1); [done..|].
  destruct (on_path_dec _ _ _ _ y Hroot) as [Hp|Hp].
  - rewrite (Hon Hp). exists 0. by eapply root_in_root.
  - by rewrite (Hoff Hp).
Qed.

Lemma finds_flat f xs :
  wf f -> Forall (fun i => i < length f) xs ->
  forall done,
    (forall y, y ∈ done -> exists ny,
       f !! y = Some ny /\ root_of f (parent ny) (parent ny)) ->
    forall y, y ∈ done ++ xs -> exists ny,
      fst (finds xs f) !! y = Some ny /\
      root_of (fst (finds xs f)) (parent ny) (parent ny).
Proof.
  intros Hwf Hxs. revert f Hwf Hxs.
  induction xs as [|x xs IH]; intros f Hwf Hxs done Hdone y Hy.
  { rewrite app_nil_r in Hy. by apply Hdone. }
  apply Forall_cons in Hxs as [Hx Hxs].
  destruct (find_ok _ _ Hwf Hx) as (f1 & r & Hf & Hr & Hpost & Hc & Hwf1).
  simpl. unfold bind. rewrite Hf.
  apply (IH f1 Hwf1) with (done := done ++ [x]).
  - destruct Hc as [-> _]. done.
  - intros z [Hz| ->%list_elem_of_singleton]%elem_of_app.
    + destruct (Hdone _ Hz) as (nz & Hnz & Hflat).
      by apply (find_keeps_flat f x f1 r z nz).
    + destruct (find_post_flat_path f x r f1 x Hr Hpost)
        as (nx & nr & Hnx & Hpx & Hnr & Hpr); [constructor|].
      exists nx. split; [done|]. rewrite Hpx. exists 0. by econstructor.
  - by rewrite <- app_assoc.
Qed.

Lemma finds_fixpoint f xs :
  flat f -> Forall (fun i => i < length f) xs -> finds xs f = (f, Ok tt).
Proof.
  intros Hflat. induction 1 as [|x xs Hx Hxs IH]; [done|].
  destruct (lookup_lt_is_Some_2 _ _ Hx) as [nx Hnx].
  destruct (Hflat _ _ Hnx) as (np & Hnp & Hpp).
  simpl. unfold bind. by rewrite (find_fixpoint f x nx np).
Qed.

(** X14: the aggregation pass leaves the forest flat (every entity has its
    representative as parent), with the representatives, ranks and values
    it found; run again on that forest it writes nothing and gives the same
    verdict. *)
Theorem verify_flattens f :
  wf f ->
  exists f' v,
    verify f = (f', Ok v) /\ flat f' /\
    length f' = length f /\
    (forall y ny, f !! y = Some ny ->
       exists ny', f' !! y = Some ny' /\ rep f y = Ok (parent ny') /\
         rank ny' = rank ny /\ money ny' = money ny) /\
    verify f' = (f', Ok v).
Proof.
  intros Hwf.
  assert (Forall (fun i => i < length f) (seq 0 (length f))) as Hord.
  { apply Forall_seq. intros; lia. }
  destruct (verify_ok f Hwf) as (f' & v & Hv & Hc & _).
  pose proof Hc as [Hlen Hc'].
  assert (wf f') as Hwf' by by eapply compressed_wf.
  assert (f' = fst (finds (seq 0 (length f)) f)) as Hheap.
  { destruct (scan_heap f (seq 0 (length f)) ∅ Hwf Hord) as [<- _].
    unfold verify, verify_scan, bind, ret in Hv.
    destruct (scan (seq 0 (length f)) ∅ f) as [f0 [s| |]]; by simplify_eq/=. }
  assert (forall y ny', f' !! y = Some ny' ->
            root_of f' (parent ny') (parent ny')) as Hroots.
  { intros y ny' Hy'. pose proof (lookup_lt_Some _ _ _ Hy') as Hlt.
    destruct (finds_flat f (seq 0 (length f)) Hwf Hord [] ltac:(set_solver) y)
      as (ny & Hy & Hflat).
    { apply elem_of_seq. lia. }
    rewrite <- Hheap in Hy, Hflat. by assert (ny = ny') as <- by congruence. }
  assert (flat f') as Hflat.
  { intros y ny' Hy'.
    apply (root_of_self_node f' (parent ny') (parent ny')).
    by apply (Hroots y). }
  exists f', v. split_and!; try done.
  - intros y ny Hy. destruct (Hc' _ _ Hy) as (ny' & Hy' & Hrk & Hm & _).
    exists ny'. split_and!; try done.
    apply rep_root_of; [done|by eapply lookup_lt_Some|].
    apply (compressed_root_of f f'); [done..|].
    destruct (Hroots _ _ Hy') as [k Hk].
    destruct (decide (parent ny' = y)) as [Heq|Hne].
    + rewrite Heq in *. by exists k.
    + exists (S k). by econstructor.
  - destruct (verify_scan_partition f' f (seq 0 (length f')))
      as (v' & Hv1 & Hv2); try done.
    + intros i. apply same_money_value. by apply compressed_money.
    + intros a b Ha Hb. apply same_group_compressed; (done || lia).
    + rewrite Hv in Hv2. simpl in Hv2. injection Hv2 as <-.
      assert (Forall (fun i => i < length f') (seq 0 (length f'))) as Hord'.
      { apply Forall_seq. intros; lia. }
      destruct (scan_heap f' (seq 0 (length f')) ∅ Hwf' Hord') as [Hh _].
      rewrite finds_fixpoint in Hh by done. simpl in Hh.
      unfold verify in *. unfold verify_scan, bind, ret in *.
      destruct (scan (seq 0 (length f')) ∅ f') as [f0 [s| |]];
        by simplify_eq/=.
Qed.

(** ** main on inputs of the intended size *)

Lemma zsum_abs_le (l : list Z) : (Z.abs (zsum l) <= zsum (Z.abs <$> l))%Z.
Proof.
  unfold zsum. induction l as [|a l IH]; [done|].
  rewrite fmap_cons. cbn [foldr]. lia.
Qed.

Lemma zsum_abs_submseteq (l1 l2 : list Z) :
  l1 ⊆+ l2 -> (zsum (Z.abs <$> l1) <= zsum (Z.abs <$> l2))%Z.
Proof.
  unfold zsum. induction 1; rewrite ?fmap_cons; cbn [foldr]; lia.
Qed.

Lemma input_value_seq ms : input_value ms <$> seq 0 (length ms) = ms.
Proof.
  apply list_eq. intros i. rewrite list_lookup_fmap.
  destruct (ms !! i) as [m|] eqn:Hi.
  - rewrite lookup_seq_lt by eauto using lookup_lt_Some. simpl.
    unfold input_value. by rewrite Hi.
  - rewrite lookup_seq_ge; [done|]. by apply lookup_ge_None.
Qed.

Lemma component_sum_in_int ms (l : list nat) :
  (zsum (Z.abs <$> ms) <= INT_MAX)%Z ->
  NoDup l -> (forall y, y ∈ l -> y < length ms) ->
  in_int (zsum (input_value ms <$> l)).
Proof.
  intros Hb Hnd Hl.
  assert (l ⊆+ seq 0 (length ms)) as Hsub.
  { apply NoDup_submseteq; [done|]. intros y Hy. apply elem_of_seq.
    specialize (Hl _ Hy). lia. }
  apply (fmap_submseteq (input_value ms)) in Hsub.
  rewrite input_value_seq in Hsub.
  apply zsum_abs_submseteq in Hsub.
  pose proof (zsum_abs_le (input_value ms <$> l)).
  unfold in_int, INT_MIN, INT_MAX in *. lia.
Qed.

(** X18: on inputs whose magnitudes add up to at most [INT_MAX], with all
    requests in range, [main] prints [POSSIBLE] exactly when the values of
    every set of entities connected by the requests add up to zero. *)
Theorem main_verdict_ideal ms us :
  Forall (valid_pair (length ms)) us ->
  (zsum (Z.abs <$> ms) <= INT_MAX)%Z ->
  main ms us = Ok POSSIBLE <->
  forall a l, a < length ms -> NoDup l ->
    (forall y, y ∈ l <-> y < length ms /\ connected us a y) ->
    zsum (input_value ms <$> l) = 0%Z.
Proof.
  intros Hus Hb.
  destruct (main_unfold ms us Hus) as (f1 & Hrun & Hwf & Hlen & Hval & ->).
  destruct (verify_ok f1 Hwf) as (f' & v & Hv & _ & Hpos).
  rewrite Hv. simpl.
  assert (Ok v = Ok POSSIBLE <-> v = POSSIBLE) as -> by (split; congruence).
  rewrite Hpos.
  assert (forall r, group_sum f1 r =
            zsum (input_value ms <$> members f1 r)) as Hsum.
  { intros r. unfold group_sum. rewrite int_sum_wrap.
    replace (value f1 <$> members f1 r)
      with (input_value ms <$> members f1 r)
      by (apply list_fmap_ext; intros _ y _; by rewrite Hval).
    apply wrap_small, component_sum_in_int; [done| |].
    - apply NoDup_filter, NoDup_seq.
    - intros y [_ Hy%elem_of_seq]%list_elem_of_filter. lia. }
  assert (forall a r y, a < length ms -> rep f1 a = Ok r ->
            y ∈ members f1 r <-> y < length ms /\ connected us a y) as Hmem.
  { intros a r y Ha Hr. unfold members, members_in.
    rewrite list_elem_of_filter, elem_of_seq, Hlen.
    pose proof (unions_make_connected ms us a y Hus Ha) as Hc.
    rewrite Hrun in Hc. simpl in Hc. rewrite <- Hc. split.
    - intros [Hy ?]. split; [lia|].
      apply (members_same_group f1 a r y); try done; lia.
    - intros [? Hy]. split; [|lia].
      apply (members_same_group f1 a r y); try done; lia. }
  split.
  - intros Hall a l Ha Hnd Hl.
    assert (a < length f1) as Ha1 by lia.
    destruct (Hwf _ Ha1) as [r Hr]. apply rep_root_of in Hr; [|done..].
    rewrite <- (Hall r), Hsum. apply zsum_perm, fmap_Permutation.
    apply NoDup_Permutation; [done| |].
    + apply NoDup_filter, NoDup_seq.
    + intros y. by rewrite Hl, (Hmem a r y).
  - intros Hall r. rewrite Hsum.
    destruct (members f1 r) as [|x g] eqn:Hg; [done|].
    assert (x ∈ members f1 r) as Hx by (rewrite Hg; by left).
    pose proof Hx as Hx'.
    apply list_elem_of_filter in Hx' as [Hrx Hxn%elem_of_seq].
    rewrite <- Hg. apply (Hall x); [lia| |].
    + apply NoDup_filter, NoDup_seq.
    + intros y. apply Hmem; [lia|done].
Qed.

(** ** ants.cpp *)

Lemma ants_min_Z a b : Ants.min a b = Z.min a b.
Proof. unfold Ants.min. destruct (Z.ltb_spec a b); lia. Qed.

Lemma ants_max_Z a b : Ants.max a b = Z.max a b.
Proof. unfold Ants.max. destruct (Z.ltb_spec a b); lia. Qed.

(** [main] never gets to its input: the first statement indexes an empty
    vector. *)
Example ants_main_faults cases : Ants.main cases = ([], Fault).
Proof. reflexivity. Qed.

(** X15: [abs] returns the magnitude of every [int] but [INT_MIN]; there
    [-a] wraps and the result is [INT_MIN] itself, a negative number. *)
Theorem ants_abs_magnitude a :
  in_int a ->
  in_int (Ants.abs a) /\
  (a <> INT_MIN -> Ants.abs a = Z.abs a) /\
  (a = INT_MIN -> Ants.abs a = INT_MIN).
Proof.
  unfold in_int, INT_MIN, INT_MAX, Ants.abs. intros Ha.
  destruct (Z.ltb_spec a 0) as [Hneg|Hpos].
  - destruct (decide (a = - 2 ^ 31)%Z) as [->|Hne].
    + split; [|split]; [vm_compute; split; discriminate|done|reflexivity].
    + rewrite wrap_small by (unfold in_int, INT_MIN, INT_MAX; lia).
      split; [lia|]. split; [lia|done].
  - split; [lia|]. split; [lia|]. intros ->. lia.
Qed.

(** The value of such a loop: the largest of the start value and the
    [g pos]. *)
Lemma ants_fold_acc (g : Z -> Z) acc ants :
  let s := foldl (fun longest pos => Ants.max longest (g pos)) acc ants in
  (acc <= s)%Z /\
  (forall pos, pos ∈ ants -> (g pos <= s)%Z) /\
  (s = acc \/ exists pos, pos ∈ ants /\ s = g pos).
Proof.
  revert acc. induction ants as [|p ants IH]; intros acc; simpl.
  - split; [lia|]. split; [|by left]. intros pos Hp.
    by apply elem_of_nil in Hp.
  - destruct (IH (Ants.max acc (g p))) as (Hge & Hle & Hat).
    rewrite ants_max_Z in Hge, Hle, Hat |- *. split; [lia|]. split.
    + intros pos [->|Hp]%elem_of_cons; [lia|]. by apply Hle.
    + destruct Hat as [Hs|(pos & Hp & Hs)].
      * destruct (Z.max_spec acc (g p)) as [[? Hm]|[? Hm]].
        -- right. exists p. split; [by left|]. congruence.
        -- left. congruence.
      * right. exists pos. split; [by right|done].
Qed.

Lemma ants_fold_spec (g : Z -> Z) ants :
  let s := foldl (fun longest pos => Ants.max longest (g pos)) 0%Z ants in
  (0 <= s)%Z /\
  (forall pos, pos ∈ ants -> (g pos <= s)%Z) /\
  (s = 0%Z \/ exists pos, pos ∈ ants /\ s = g pos).
Proof. apply ants_fold_acc. Qed.

(** X16: one test case, with every ant on the rod ([0 <= pos <= l]): the
    first number is the largest distance of an ant to its nearer end, the
    second the largest distance to its farther end (both 0 without ants);
    so the first is at most half the rod, and the second is at least that
    with an ant and at most the rod. *)
Theorem ants_times_characterised l ants :
  (0 <= l <= INT_MAX)%Z ->
  Forall (fun pos => 0 <= pos <= l)%Z ants ->
  let s := Ants.shortestT l ants in
  let g := Ants.longestT l ants in
  (forall pos, pos ∈ ants ->
     (Z.min pos (l - pos) <= s)%Z /\ (Z.max pos (l - pos) <= g)%Z) /\
  (ants = [] -> s = 0%Z /\ g = 0%Z) /\
  (ants <> [] ->
     (exists pos, pos ∈ ants /\ s = Z.min pos (l - pos)) /\
     (exists pos, pos ∈ ants /\ g = Z.max pos (l - pos))) /\
  (0 <= s)%Z /\ (2 * s <= l)%Z /\ (s <= g <= l)%Z /\
  (ants <> [] -> (l <= 2 * g)%Z).
Proof.
  intros Hl Hants. rewrite Forall_forall in Hants. simpl.
  assert (forall pos, pos ∈ ants -> wrap (l - pos) = (l - pos)%Z) as Hw.
  { intros pos Hp. specialize (Hants _ Hp). apply wrap_small.
    unfold in_int, INT_MIN, INT_MAX in *. lia. }
  destruct (ants_fold_spec (fun pos => Ants.min pos (wrap (l - pos))) ants)
    as (Hs0 & Hsle & Hsat).
  destruct (ants_fold_spec (fun pos => Ants.max pos (wrap (l - pos))) ants)
    as (Hg0 & Hgle & Hgat).
  fold (Ants.shortestT l ants) in *. fold (Ants.longestT l ants) in *.
  assert (forall pos, pos ∈ ants ->
            (Z.min pos (l - pos) <= Ants.shortestT l ants)%Z /\
            (Z.max pos (l - pos) <= Ants.longestT l ants)%Z) as Hup.
  { intros pos Hp. specialize (Hsle _ Hp). specialize (Hgle _ Hp).
    rewrite ants_min_Z, Hw in Hsle by done.
    rewrite ants_max_Z, Hw in Hgle by done. done. }
  assert (ants <> [] ->
            (exists pos, pos ∈ ants /\
               Ants.shortestT l ants = Z.min pos (l - pos)) /\
            (exists pos, pos ∈ ants /\
               Ants.longestT l ants = Z.max pos (l - pos))) as Hat.
  { intros Hne. destruct ants as [|p0 ants0] eqn:E; [done|]. rewrite <- E in *.
    assert (p0 ∈ ants) as Hp0 by (rewrite E; by left).
    pose proof (Hants _ Hp0) as Hr0. pose proof (Hup _ Hp0) as [Hu1 Hu2].
    split.
    - destruct Hsat as [H0|(pos & Hp & Hs)].
      + exists p0. split; [done|]. lia.
      + exists pos. split; [done|]. by rewrite Hs, ants_min_Z, Hw.
    - destruct Hgat as [H0|(pos & Hp & Hg)].
      + exists p0. split; [done|]. lia.
      + exists pos. split; [done|]. by rewrite Hg, ants_max_Z, Hw. }
  split; [done|]. split; [by intros ->|]. split; [done|].
  destruct ants as [|p0 ants0] eqn:E.
  { cbn. split_and!; try lia. done. }
  rewrite <- E in *. destruct Hat as [(ps & Hps & Hs) (pg & Hpg & Hg)].
  { by rewrite E. }
  pose proof (Hants _ Hps). pose proof (Hants _ Hpg).
  assert (p0 ∈ ants) as Hp0 by (rewrite E; by left).
  pose proof (Hants _ Hp0). pose proof (Hup _ Hp0) as [? ?].
  pose proof (Hup _ Hps) as [? ?].
  split_and!; try lia.
Qed.

Lemma ants_fold_perm (g : Z -> Z) acc ants ants' :
  ants ≡ₚ ants' ->
  foldl (fun longest pos => Ants.max longest (g pos)) acc ants =
  foldl (fun longest pos => Ants.max longest (g pos)) acc ants'.
Proof.
  intros Hp. revert acc.
  induction Hp as [|x l1 l2 _ IH|x y l1|l1 l2 l3 _ IH1 _ IH2]; intros acc;
    simpl; [done|by rewrite IH| |by rewrite IH1].
  f_equal. rewrite !ants_max_Z. lia.
Qed.

(** X17: the two numbers of a test case do not depend on the order in
    which the positions are given, for any [int] input. *)
Theorem ants_times_order_irrelevant l ants ants' :
  ants ≡ₚ ants' ->
  Ants.run_case (l, ants) = Ants.run_case (l, ants').
Proof.
  intros Hp. unfold Ants.run_case, Ants.shortestT, Ants.longestT. simpl.
  by rewrite (ants_fold_perm _ 0%Z ants ants' Hp),
    (ants_fold_perm (fun pos => Ants.max pos (wrap (l - pos))) 0%Z
       ants ants' Hp).
Qed.

(** ** The further theorems at concrete inputs *)

Lemma chain_unions_valid :
  Forall (valid_pair (length chain_values)) chain_unions.
Proof. compute_done. Qed.

Lemma chain_values_small : (Z.of_nat (length chain_values) <= INT_MAX)%Z.
Proof. vm_compute. discriminate. Qed.

Lemma chain_ops_valid :
  Forall (valid_op (length chain_values))
    [OpUnion 0 1; OpFind 1; OpUnion 2 3; OpQuery 1 3; OpUnion 1 3].
Proof. compute_done. Qed.

Lemma query_equivalence_witness :
  wf chain_forest /\
  snd (query 3 3 chain_forest) = Ok true /\
  snd (query 1 3 chain_forest) = snd (query 3 1 chain_forest).
Proof.
  destruct (query_equivalence chain_forest chain_forest_wf) as (Hr & Hs & _).
  split; [exact chain_forest_wf|]. split.
  - apply Hr. vm_compute; lia.
  - apply Hs; vm_compute; lia.
Defined.

Lemma query_reads_only_witness :
  wf chain_forest /\ 1 < length chain_forest /\ 3 < length chain_forest /\
  exists f' (ra rb : nat),
    query 1 3 chain_forest = (f', Ok (bool_decide (ra = rb))) /\
    forall y, y < length chain_forest -> rep f' y = rep chain_forest y.
Proof.
  assert (1 < length chain_forest) as H1 by (vm_compute; lia).
  assert (3 < length chain_forest) as H3 by (vm_compute; lia).
  split; [exact chain_forest_wf|]. split; [exact H1|]. split; [exact H3|].
  destruct (query_reads_only chain_forest 1 3 chain_forest_wf H1 H3)
    as (f' & ra & rb & Hq & _ & _ & _ & _ & Hrep & _).
  exists f', ra, rb. auto.
Defined.

Lemma make_singletons_witness :
  2 < length chain_values /\
  find 2 (make chain_values) = (make chain_values, Ok 2).
Proof.
  assert (2 < length chain_values) as H2 by (vm_compute; lia).
  split; [exact H2|].
  destruct (make_singletons chain_values) as (_ & Hf & _). exact (Hf 2 H2).
Defined.

Lemma nodeUnion_merges_groups_witness :
  wf chain_forest /\ 3 < length chain_forest /\ 4 < length chain_forest /\
  exists f',
    nodeUnion 3 4 chain_forest = (f', Ok tt) /\
    snd (query 3 4 f') = Ok true.
Proof.
  assert (3 < length chain_forest) as H3 by (vm_compute; lia).
  assert (4 < length chain_forest) as H4 by (vm_compute; lia).
  split; [exact chain_forest_wf|]. split; [exact H3|]. split; [exact H4|].
  destruct (nodeUnion_merges_groups chain_forest 3 4 chain_forest_wf H3 H4)
    as (f' & Hu & _ & Hq & _).
  exists f'. auto.
Defined.

Lemma nodeUnion_argument_order_witness :
  wf chain_forest /\
  snd (query 1 4 (fst (nodeUnion 3 4 chain_forest))) =
  snd (query 1 4 (fst (nodeUnion 4 3 chain_forest))).
Proof.
  split; [exact chain_forest_wf|].
  apply (nodeUnion_argument_order chain_forest 3 4 chain_forest_wf);
    vm_compute; lia.
Defined.

Lemma unions_connect_witness :
  Forall (valid_pair (length chain_values)) chain_unions /\
  (snd (query 1 3 (fst (unions chain_unions (make chain_values)))) = Ok true
   <-> connected chain_unions 1 3).
Proof.
  split; [exact chain_unions_valid|].
  apply (unions_connect chain_values chain_unions chain_unions_valid);
    vm_compute; lia.
Defined.


Lemma main_verdict_witness :
  Forall (valid_pair (length chain_values)) chain_unions /\
  exists v, main chain_values chain_unions = Ok v.
Proof.
  split; [exact chain_unions_valid|].
  destruct (main_verdict chain_values chain_unions chain_unions_valid)
    as (v & Hv & _).
  exists v. exact Hv.
Defined.

Lemma main_returns_on_valid_requests_witness :
  Forall (valid_pair (length chain_values)) chain_unions /\
  (main chain_values chain_unions = Ok POSSIBLE \/
   main chain_values chain_unions = Ok IMPOSSIBLE).
Proof.
  split; [exact chain_unions_valid|].
  exact (main_returns_on_valid_requests chain_values chain_unions
           chain_unions_valid).
Defined.

Lemma ranks_increase_to_root_witness :
  (Z.of_nat (length chain_values) <= INT_MAX)%Z /\
  exists f,
    run_ops [OpUnion 0 1; OpFind 1; OpUnion 2 3; OpQuery 1 3; OpUnion 1 3]
      (make chain_values) = (f, Ok tt) /\
    forall x nx, f !! x = Some nx -> (0 <= rank nx < 5)%Z.
Proof.
  split; [exact chain_values_small|].
  destruct (ranks_increase_to_root chain_values _ chain_values_small
              chain_ops_valid) as (f & Hrun & Hr).
  exists f. split; [exact Hrun|]. intros x nx Hx. exact (proj1 (Hr x nx Hx)).
Defined.

Lemma root_rank_bounds_group_witness :
  (Z.of_nat (length chain_values) <= INT_MAX)%Z /\
  exists f,
    run_ops [OpUnion 0 1; OpFind 1; OpUnion 2 3; OpQuery 1 3; OpUnion 1 3]
      (make chain_values) = (f, Ok tt) /\
    forall x nx, f !! x = Some nx -> (2 ^ rank nx <= 5)%Z.
Proof.
  split; [exact chain_values_small|].
  destruct (root_rank_bounds_group chain_values _ chain_values_small
              chain_ops_valid) as (f & Hrun & _ & Hr).
  exists f. split; [exact Hrun|]. exact Hr.
Defined.

Lemma find_depth_logarithmic_witness :
  (Z.of_nat (length chain_values) <= INT_MAX)%Z /\
  exists f,
    run_ops [OpUnion 0 1; OpFind 1; OpUnion 2 3; OpQuery 1 3; OpUnion 1 3]
      (make chain_values) = (f, Ok tt) /\
    exists k r, root_in f k 3 r /\ (2 ^ Z.of_nat k <= 5)%Z.
Proof.
  split; [exact chain_values_small|].
  destruct (find_depth_logarithmic chain_values _ chain_values_small
              chain_ops_valid) as (f & Hrun & Hd).
  exists f. split; [exact Hrun|].
  destruct (Hd 3) as (k & r & Hroot & Hk & _); [vm_compute; lia|].
  exists k, r. auto.
Defined.

Lemma find_twice_witness :
  wf chain_forest /\ 3 < length chain_forest /\
  exists f1 r,
    find 3 chain_forest = (f1, Ok r) /\ find 3 f1 = (f1, Ok r).
Proof.
  assert (3 < length chain_forest) as H3 by (vm_compute; lia).
  split; [exact chain_forest_wf|]. split; [exact H3|].
  destruct (find_twice chain_forest 3 chain_forest_wf H3) as (f1 & r & Hf & Hy).
  exists f1, r. split; [exact Hf|]. apply Hy. constructor.
Defined.

Lemma verify_flattens_witness :
  wf chain_forest /\
  exists f' v,
    verify chain_forest = (f', Ok v) /\ flat f' /\ verify f' = (f', Ok v).
Proof.
  split; [exact chain_forest_wf|].
  destruct (verify_flattens chain_forest chain_forest_wf)
    as (f' & v & Hv & Hflat & _ & _ & Hagain).
  exists f', v. auto.
Defined.

Lemma main_verdict_ideal_witness :
  Forall (valid_pair (length chain_values)) chain_unions /\
  (zsum (Z.abs <$> chain_values) <= INT_MAX)%Z /\
  (main chain_values chain_unions = Ok POSSIBLE <->
   forall a l, a < length chain_values -> NoDup l ->
     (forall y, y ∈ l <->
        y < length chain_values /\ connected chain_unions a y) ->
     zsum (input_value chain_values <$> l) = 0%Z).
Proof.
  assert (zsum (Z.abs <$> chain_values) <= INT_MAX)%Z as Hb
    by (vm_compute; discriminate).
  split; [exact chain_unions_valid|]. split; [exact Hb|].
  exact (main_verdict_ideal chain_values chain_unions chain_unions_valid Hb).
Defined.

Lemma ants_abs_magnitude_witness :
  in_int (-5) /\ Ants.abs (-5) = Z.abs (-5).
Proof.
  assert (in_int (-5)) as Hi by (vm_compute; split; discriminate).
  split; [exact Hi|].
  destruct (ants_abs_magnitude (-5) Hi) as (_ & Hm & _).
  apply Hm. vm_compute. discriminate.
Defined.

Lemma ants_times_characterised_witness :
  (0 <= 10 <= INT_MAX)%Z /\
  Forall (fun pos => 0 <= pos <= 10)%Z [2; 6; 7]%Z /\
  (2 * Ants.shortestT 10 [2; 6; 7] <= 10)%Z /\
  (10 <= 2 * Ants.longestT 10 [2; 6; 7])%Z.
Proof.
  assert (0 <= 10 <= INT_MAX)%Z as Hl by (vm_compute; split; discriminate).
  assert (Forall (fun pos => 0 <= pos <= 10)%Z [2; 6; 7]%Z) as Ha
    by (repeat constructor; lia).
  split; [exact Hl|]. split; [exact Ha|].
  destruct (ants_times_characterised 10 [2; 6; 7]%Z Hl Ha)
    as (_ & _ & _ & _ & Hs & _ & Hg).
  split; [exact Hs|]. apply Hg. discriminate.
Defined.

Lemma ants_times_order_irrelevant_witness :
  [2; 6; 7]%Z ≡ₚ [7; 2; 6]%Z /\
  Ants.run_case (10%Z, [2; 6; 7]%Z) = Ants.run_case (10%Z, [7; 2; 6]%Z).
Proof.
  assert ([2; 6; 7]%Z ≡ₚ [7; 2; 6]%Z) as Hp by compute_done.
  split; [exact Hp|].
  exact (ants_times_order_irrelevant 10 _ _ Hp).
Defined.
